(** * Fontwerk profile checks of fontbakery: weight class, fvar/STAT
      consistency and interpolation issues

    Shallow embedding of [Lib/fontbakery/profiles/fontwerk.py].

    Conventions of the embedding.
    - Numbers.  [usWeightClass], name IDs and glyph coordinates are integers
      ([Z]).  Axis values of [fvar] and [STAT] are 16.16 fixed-point numbers
      that fontTools hands out as Python floats; every such value is a
      rational that binary64 represents exactly, so they are modelled as [Q]
      and Python's [==] on them is [Qeq_bool].  Bearings are the floats
      returned by [degrees(atan2(y, x))]; they are modelled as [Q] too, with
      exact arithmetic, and the function itself is a parameter of the
      development (it belongs to Python's math module).
    - Attributes.  An attribute that the source reads with
      [getattr(obj, name, None)] may be absent and is an [option]; an
      attribute that the source reads directly is a field.
    - Exceptions.  Code that can raise returns an [outcome]; a generator is
      the list of what it yielded together with the way it finished. *)

From Stdlib Require Import ZArith QArith Qabs Lia Lqa.
From stdpp Require Import gmap strings list.

Close Scope Q_scope.
Local Open Scope Z_scope.

(** ** Python exceptions, results and generators *)

Inductive exn := AttributeError | IndexError.

Inductive outcome (A : Type) :=
| Done (a : A)
| Raised (e : exn).
Arguments Done {A} a.
Arguments Raised {A} e.

#[global] Instance outcome_ret : MRet outcome := λ A a, Done a.
#[global] Instance outcome_bind : MBind outcome := λ A B k o,
  match o with
  | Done a => k a
  | Raised e => Raised e
  end.

Inductive Status := PASS | FAIL.

(** The text of a message is an f-string; it is kept as the template it
    comes from together with the values interpolated into it. *)
Inductive Text :=
| bad_weight_class_text (os2_value : Z) (fvar_value : Q)
| weight_class_matches_text (os2_value : Z)
| missing_stat_text
| missing_name_id_text (subfamilyNameID : Z)
| missing_axis_value_text (instance_name axis_tag : string) (value : Q)
| interpolation_text (title : string) (g_names : gset string)
| no_interpolation_issues_text.

Inductive Payload :=
| Message (code : string) (text : Text)
| Plain (text : Text).

Definition Result : Type := Status * Payload.

(** A run of a generator function: the results it yielded, in order, and how
    the run ended.  [Done r] is a normal end; [r] is the value of a [return]
    statement ([None] for a bare [return] or for falling off the end), which
    Python stores in [StopIteration] and which a consumer iterating over the
    generator never sees. *)
Record gen := Gen {
  yielded : list Result;
  finish : outcome (option Result)
}.

Definition gen_return (r : option Result) : gen := Gen [] (Done r).
Definition gen_raise (e : exn) : gen := Gen [] (Raised e).

(** [yield r] followed by the rest of the body. *)
Definition gen_yield (r : Result) (rest : gen) : gen :=
  Gen (r :: yielded rest) (finish rest).

(** Sequencing of two pieces of a generator body: the second runs only when
    the first fell off its end. *)
Definition gen_seq (g1 g2 : gen) : gen :=
  match finish g1 with
  | Done None => Gen (yielded g1 ++ yielded g2) (finish g2)
  | _ => g1
  end.

(** [for x in l: body x], where [body] does not return a value. *)
Fixpoint gen_for {A} (l : list A) (body : A → gen) : gen :=
  match l with
  | [] => gen_return None
  | x :: l' => gen_seq (body x) (gen_for l' body)
  end.

(** The findings of a run that carry a given message code. *)
Definition has_code (code : string) (r : Result) : bool :=
  match r with
  | (_, Message c _) => bool_decide (c = code)
  | _ => false
  end.

Definition findings (code : string) (g : gen) : list Result :=
  List.filter (has_code code) (yielded g).

(** ** Python containers *)

(** A [dict], which keeps the insertion order of its keys. *)
Section odict.
Context {K V : Type} `{EqDecision K}.

Fixpoint od_get (k : K) (d : list (K * V)) : option V :=
  match d with
  | [] => None
  | (k', v) :: d' => if decide (k' = k) then Some v else od_get k d'
  end.

(** [d[k] = v]: an existing key keeps its position. *)
Fixpoint od_set (k : K) (v : V) (d : list (K * V)) : list (K * V) :=
  match d with
  | [] => [(k, v)]
  | (k', v') :: d' =>
      if decide (k' = k) then (k, v) :: d' else (k', v') :: od_set k v d'
  end.

Definition od_keys (d : list (K * V)) : list K := d.*1.
End odict.

(** [l[i]] on a Python sequence: a negative index counts from the end. *)
Definition py_getitem {A} (l : list A) (i : Z) : outcome A :=
  let len := Z.of_nat (length l) in
  let j := if 0 <=? i then i else len + i in
  if (0 <=? j) && (j <? len) then
    match l !! Z.to_nat j with
    | Some x => Done x
    | None => Raised IndexError
    end
  else Raised IndexError.

(** [int(x)] on a float: truncation towards zero. *)
Definition int (x : Q) : Z := Z.quot (Qnum x) (Z.pos (Qden x)).

(** ** The font model *)

Module Fvar.
Record Axis := { axisTag : string; defaultValue : Q }.
Record NamedInstance := {
  subfamilyNameID : Z;
  coordinates : list (string * Q)
}.
Record table := { axes : list Axis; instances : list NamedInstance }.
End Fvar.

Module Stat.
Record AxisRecord := { AxisTag : string }.
(** The attributes of an axis value record that [is_covered_in_stat]
    reads.  [AxisIndex] is read for every record before its format is
    looked at. *)
Record AxisValue := {
  Format : Z;
  AxisIndex : nat;
  Value : Q;
  LinkedValue : Q;
  NominalValue : Q
}.
Record table := {
  DesignAxisRecord : list AxisRecord;
  AxisValueArray : list AxisValue
}.
End Stat.

Module Os2.
Record table := { usWeightClass : Z }.
End Os2.

Module Name.
(** [getDebugName] is fontTools' resolution of a name ID to a string;
    [None] when the name table has no usable record for the ID. *)
Record table := { getDebugName : Z → option string }.
End Name.

Module Glyf.
Definition Point : Type := Z * Z.
(** A component reference: the glyph referred to and its offset. *)
Definition Component : Type := string * (Z * Z).
Record Glyph := {
  coordinates : option (list Point);
  numberOfContours : option Z;
  components : option (list Component);
  isComposite : bool;
  endPtsOfContours : list Z
}.
End Glyf.

Record TTFont := {
  fvar : Fvar.table;
  STAT : option Stat.table;
  OS2 : Os2.table;
  name : Name.table;
  glyf : gmap string Glyf.Glyph;
  getGlyphOrder : list string
}.

(** ** com.fontwerk/check/weight_class_fvar *)

(** [{a.axisTag: a.defaultValue for a in fvar.axes}] *)
Definition default_axis_values (ttFont : TTFont) : list (string * Q) :=
  foldl (λ d a, od_set (Fvar.axisTag a) (Fvar.defaultValue a) d) []
        (Fvar.axes (fvar ttFont)).

Definition com_fontwerk_check_weight_class_fvar (ttFont : TTFont) : gen :=
  let fvar_value := od_get "wght"%string (default_axis_values ttFont) in
  let os2_value := Os2.usWeightClass (OS2 ttFont) in
  match fvar_value with
  | None => gen_return None
  | Some fvar_value =>
      if negb (os2_value =? int fvar_value) then
        gen_yield (FAIL, Message "bad-weight-class"
                           (bad_weight_class_text os2_value fvar_value))
                  (gen_return None)
      else
        gen_yield (PASS, Plain (weight_class_matches_text os2_value))
                  (gen_return None)
  end.

(** ** com.fontwerk/check/inconsistencies_between_fvar_stat *)

(** [value in stat_value] on a list of floats. *)
Definition float_in (value : Q) (stat_value : list Q) : bool :=
  existsb (Qeq_bool value) stat_value.

(** The list [stat_value] that the loop body builds for one record; the
    branch for format 4 is [pass]. *)
Definition stat_value_of (ax_value : Stat.AxisValue) : list Q :=
  let f := Stat.Format ax_value in
  (if (f =? 1) || (f =? 3) then [Stat.Value ax_value] else [])
  ++ (if f =? 3 then [Stat.LinkedValue ax_value] else [])
  ++ (if f =? 2 then [Stat.NominalValue ax_value] else [])
  ++ (if f =? 4 then [] else []).

Fixpoint is_covered_loop (stat_table : Stat.table) (axis_tag : string)
    (value : Q) (ax_values : list Stat.AxisValue) : outcome bool :=
  match ax_values with
  | [] => Done false
  | ax_value :: rest =>
      match Stat.DesignAxisRecord stat_table !! Stat.AxisIndex ax_value with
      | None => Raised IndexError
      | Some axis =>
          if negb (bool_decide (axis_tag = Stat.AxisTag axis)) then
            is_covered_loop stat_table axis_tag value rest
          else if float_in value (stat_value_of ax_value) then Done true
          else is_covered_loop stat_table axis_tag value rest
      end
  end.

(** [is_covered_in_stat], on the table that [ttFont['STAT'].table] gives. *)
Definition is_covered_in_stat (stat_table : Stat.table) (axis_tag : string)
    (value : Q) : outcome bool :=
  is_covered_loop stat_table axis_tag value (Stat.AxisValueArray stat_table).

(** The inner loop over [ins.coordinates.items()]. *)
Definition coordinates_loop (stat_table : Stat.table) (instance_name : string)
    (coords : list (string * Q)) : gen :=
  gen_for coords (λ '(axis_tag, value),
    match is_covered_in_stat stat_table axis_tag value with
    | Raised e => gen_raise e
    | Done true => gen_return None
    | Done false =>
        gen_yield (FAIL, Message "missing-fvar-instance-axis-value"
                     (missing_axis_value_text instance_name axis_tag value))
                  (gen_return None)
    end).

(** The body of [for ins in fvar.instances]. *)
Definition instance_body (ttFont : TTFont) (stat_table : Stat.table)
    (ins : Fvar.NamedInstance) : gen :=
  match Name.getDebugName (name ttFont) (Fvar.subfamilyNameID ins) with
  | None =>
      gen_yield (FAIL, Message "missing-name-id"
                   (missing_name_id_text (Fvar.subfamilyNameID ins)))
                (gen_return None)
  | Some instance_name =>
      coordinates_loop stat_table instance_name (Fvar.coordinates ins)
  end.

Definition com_fontwerk_check_inconsistencies_between_fvar_stat
    (ttFont : TTFont) : gen :=
  match STAT ttFont with
  | None =>
      gen_return (Some (FAIL, Message "missing-stat-table" missing_stat_text))
  | Some stat_table =>
      gen_for (Fvar.instances (fvar ttFont)) (instance_body ttFont stat_table)
  end.

(** ** Geometry helpers *)

(** What the checks use of Python's math module: [degrees_atan2 y x] is
    [degrees(atan2(y, x))], an angle between -180 and 180 degrees. *)
Class Math := {
  degrees_atan2 : Z → Z → Q;
  degrees_atan2_range y x : (-180 <= degrees_atan2 y x <= 180)%Q
}.

(** [instancer.instantiateVariableFont] of fontTools: the static font at
    the given axis coordinates. *)
Class Instancer := {
  instantiateVariableFont : TTFont → list (string * Q) → TTFont
}.

Definition add_dict_set (d : list (string * gset string))
    (item_dict item_set : string) : list (string * gset string) :=
  let d := match od_get item_dict d with
           | None => od_set item_dict ∅ d
           | Some _ => d
           end in
  od_set item_dict (default ∅ (od_get item_dict d) ∪ {[item_set]}) d.

(** The default [rel_tol] of [math.isclose]. *)
Definition rel_tol : Q := 1 # 1000000000.

(** [math.isclose(a, b, abs_tol=abs_tol)] on finite floats. *)
Definition isclose (a b abs_tol : Q) : bool :=
  Qeq_bool a b ||
  let diff := Qabs (b - a) in
  Qle_bool diff (Qabs (rel_tol * b))
  || Qle_bool diff (Qabs (rel_tol * a))
  || Qle_bool diff abs_tol.

Definition close_enough (value_a value_b tolerance : Q) : bool :=
  isclose value_a value_b tolerance.

Definition get_degree_of_line {math : Math} (point_a point_b : Glyf.Point) : Q :=
  let x := point_b.1 - point_a.1 in
  let y := point_b.2 - point_a.2 in
  degrees_atan2 y x.

Definition normalize_degree (deg : Q) : Q :=
  if negb (Qle_bool 0 deg) then (deg + 360)%Q else deg.

(** ** com.fontwerk/check/interpolation_issues *)

Definition points_title : string :=
  "Differences in 'coordinates' (number of points)".
Definition contours_title : string := "Differences in 'numberOfContours'".
Definition composite_title : string := "Differences in 'isComposite'".
Definition components_title : string := "Differences in 'components'".
Definition direction_title : string :=
  "Differences in end point direction (more than 45 degree)".

Definition titles : list string :=
  [points_title; contours_title; composite_title; components_title;
   direction_title].

(** The entries of [glyphs] are what [glyf.get(g_name, None)] returned:
    [None] when the instance has no such glyph. *)

(** [{len(g.coordinates) for g in glyphs if getattr(g, 'coordinates', None)}] *)
Definition point_count (g : option Glyf.Glyph) : option nat :=
  match g ≫= Glyf.coordinates with
  | Some (p :: c) => Some (length (p :: c))
  | _ => None
  end.

Definition points_set (glyphs : list (option Glyf.Glyph)) : gset nat :=
  list_to_set (omap point_count glyphs).

(** [{g.numberOfContours for g in glyphs if getattr(g, 'numberOfContours', None)}] *)
Definition contour_count (g : option Glyf.Glyph) : option Z :=
  match g ≫= Glyf.numberOfContours with
  | Some n => if n =? 0 then None else Some n
  | None => None
  end.

Definition contours_set (glyphs : list (option Glyf.Glyph)) : gset Z :=
  list_to_set (omap contour_count glyphs).

(** [{g.isComposite() for g in glyphs}]: the method call fails on [None]. *)
Fixpoint composite_set (glyphs : list (option Glyf.Glyph))
    : outcome (gset bool) :=
  match glyphs with
  | [] => Done ∅
  | None :: _ => Raised AttributeError
  | Some g :: rest =>
      s ← composite_set rest; Done ({[Glyf.isComposite g]} ∪ s)
  end.

(** [{g.components for g in glyphs if getattr(g, 'components', None)}] *)
Definition component_list (g : option Glyf.Glyph)
    : option (list Glyf.Component) :=
  match g ≫= Glyf.components with
  | Some (c :: cs) => Some (c :: cs)
  | _ => None
  end.

Definition components_set (glyphs : list (option Glyf.Glyph))
    : gset (list Glyf.Component) :=
  list_to_set (omap component_list glyphs).

(** [g.coordinates] and [g.endPtsOfContours], read directly. *)
Definition coordinates_of (g : option Glyf.Glyph)
    : outcome (list Glyf.Point) :=
  match g ≫= Glyf.coordinates with
  | Some c => Done c
  | None => Raised AttributeError
  end.

Definition endPtsOfContours_of (g : option Glyf.Glyph) : outcome (list Z) :=
  match g with
  | Some g => Done (Glyf.endPtsOfContours g)
  | None => Raised AttributeError
  end.

(** The bearing of the last segment of the contour that ends at point [n]:
    what the loop below computes as [deg] from [g.coordinates] and as
    [pre_deg] from [previous_g.coordinates]. *)
Definition end_bearing {math : Math} (c : list Glyf.Point) (n : Z) : outcome Q :=
  end_point ← py_getitem c n;
  before_end_point ← py_getitem c (n - 1);
  Done (get_degree_of_line before_end_point end_point).

(** [for n in g.endPtsOfContours]; the [break] ends this loop only. *)
Fixpoint contours_loop {math : Math} (errs : list (string * gset string))
    (g_name : string) (g previous_g : option Glyf.Glyph) (ns : list Z)
    : outcome (list (string * gset string)) :=
  match ns with
  | [] => Done errs
  | n :: rest =>
      c ← coordinates_of g;
      end_point ← py_getitem c n;
      before_end_point ← py_getitem c (n - 1);
      pc ← coordinates_of previous_g;
      pre_end_point ← py_getitem pc n;
      pre_before_end_point ← py_getitem pc (n - 1);
      let deg := get_degree_of_line before_end_point end_point in
      let pre_deg := get_degree_of_line pre_before_end_point pre_end_point in
      if close_enough deg pre_deg 45 then
        contours_loop errs g_name g previous_g rest
      else if negb (close_enough (normalize_degree deg)
                                 (normalize_degree pre_deg) 45) then
        Done (add_dict_set errs direction_title g_name)
      else contours_loop errs g_name g previous_g rest
  end.

(** [for i, g in enumerate(glyphs)] from [i = 1] on, [previous_g] being
    [glyphs[i - 1]]. *)
Fixpoint instances_loop {math : Math} (errs : list (string * gset string))
    (g_name : string) (previous_g : option Glyf.Glyph)
    (glyphs : list (option Glyf.Glyph))
    : outcome (list (string * gset string)) :=
  match glyphs with
  | [] => Done errs
  | g :: rest =>
      ns ← endPtsOfContours_of g;
      errs ← contours_loop errs g_name g previous_g ns;
      instances_loop errs g_name g rest
  end.

Definition direction_stage {math : Math} (errs : list (string * gset string))
    (g_name : string) (glyphs : list (option Glyf.Glyph))
    : outcome (list (string * gset string)) :=
  match glyphs with
  | [] => Done errs
  | g0 :: rest => instances_loop errs g_name g0 rest
  end.

(** The body of [for g_name in ttFont.getGlyphOrder()] from a given test
    on, once [glyphs] is gathered; each [continue] ends the body. *)
Definition components_stage {math : Math} (errs : list (string * gset string))
    (g_name : string) (glyphs : list (option Glyf.Glyph))
    : outcome (list (string * gset string)) :=
  if bool_decide (1 < size (components_set glyphs))%nat then
    Done (add_dict_set errs components_title g_name)
  else direction_stage errs g_name glyphs.

Definition composite_stage {math : Math} (errs : list (string * gset string))
    (g_name : string) (glyphs : list (option Glyf.Glyph))
    : outcome (list (string * gset string)) :=
  cs ← composite_set glyphs;
  if bool_decide (1 < size cs)%nat then
    Done (add_dict_set errs composite_title g_name)
  else components_stage errs g_name glyphs.

Definition contours_stage {math : Math} (errs : list (string * gset string))
    (g_name : string) (glyphs : list (option Glyf.Glyph))
    : outcome (list (string * gset string)) :=
  if bool_decide (1 < size (contours_set glyphs))%nat then
    Done (add_dict_set errs contours_title g_name)
  else composite_stage errs g_name glyphs.

Definition check_glyph {math : Math} (errs : list (string * gset string))
    (g_name : string) (glyphs : list (option Glyf.Glyph))
    : outcome (list (string * gset string)) :=
  if bool_decide (size (points_set glyphs) = 0)%nat then Done errs
  else if bool_decide (1 < size (points_set glyphs))%nat then
    Done (add_dict_set errs points_title g_name)
  else contours_stage errs g_name glyphs.

(** The dictionary [font_instances], keyed by what [getDebugName] gave. *)
Definition materialize {instancer : Instancer} (ttFont : TTFont)
    : list (option string * TTFont) :=
  foldl (λ font_instances instance,
           let instance_font :=
             instantiateVariableFont ttFont (Fvar.coordinates instance) in
           let subfamilyname :=
             Name.getDebugName (name ttFont)
                               (Fvar.subfamilyNameID instance) in
           od_set subfamilyname instance_font font_instances)
        [] (Fvar.instances (fvar ttFont)).

(** The list [glyphs] of one glyph name. *)
Definition gather (font_instances : list (option string * TTFont))
    (g_name : string) : list (option Glyf.Glyph) :=
  (λ kv, glyf kv.2 !! g_name) <$> font_instances.

Fixpoint glyph_order_loop {math : Math}
    (font_instances : list (option string * TTFont))
    (errs : list (string * gset string)) (order : list string)
    : outcome (list (string * gset string)) :=
  match order with
  | [] => Done errs
  | g_name :: rest =>
      errs ← check_glyph errs g_name (gather font_instances g_name);
      glyph_order_loop font_instances errs rest
  end.

(** The final [if errs: ... else: ...]. *)
Definition report (errs : list (string * gset string)) : gen :=
  match errs with
  | [] => gen_yield (PASS, Plain no_interpolation_issues_text)
                    (gen_return None)
  | _ => gen_for errs (λ '(title, g_names),
           gen_yield (FAIL, Message "interpolation-issues"
                        (interpolation_text title g_names))
                     (gen_return None))
  end.

(** The check on the instances already materialized. *)
Definition check_instances {math : Math}
    (font_instances : list (option string * TTFont))
    (order : list string) : gen :=
  match glyph_order_loop font_instances [] order with
  | Raised e => gen_raise e
  | Done errs => report errs
  end.

Definition com_fontwerk_check_interpolation_issues {math : Math} {instancer : Instancer}
    (ttFont : TTFont) : gen :=
  check_instances (materialize ttFont) (getGlyphOrder ttFont).





(** ** Fonts and glyphs used as concrete inputs *)

(** A stand-in for [degrees(atan2(y, x))] on the segment vectors of the
    glyphs below, in whole degrees: exact on the horizontal and the diagonal
    vector, and the nearest degree for (29, 28) and (28, 29), whose bearings
    are 43.995 and 46.005 degrees.  Any other vector gets 0. *)
Definition whole_degrees (y x : Z) : Q :=
  if (y =? 0) && (0 <? x) then 0%Q
  else if (y =? x) && (0 <? x) then 45%Q
  else if (y =? 28) && (x =? 29) then 44%Q
  else if (y =? 29) && (x =? 28) then 46%Q
  else 0%Q.

Definition whole_degrees_range (y x : Z) :
  (-180 <= whole_degrees y x <= 180)%Q.
Proof. unfold whole_degrees. repeat case_match; split; done. Qed.

Definition whole_degrees_math : Math :=
  {| degrees_atan2 := whole_degrees;
     degrees_atan2_range := whole_degrees_range |}.

(** A stand-in for the instancer with two masters: coordinates with a
    [wght] of 700 or more give the bold outlines, any other the light
    ones. *)
Definition with_glyf (ttFont : TTFont) (outlines : gmap string Glyf.Glyph)
    : TTFont :=
  {| fvar := fvar ttFont; STAT := STAT ttFont; OS2 := OS2 ttFont;
     name := name ttFont; glyf := outlines;
     getGlyphOrder := getGlyphOrder ttFont |}.

Definition two_masters (light bold : gmap string Glyf.Glyph) : Instancer :=
  {| instantiateVariableFont ttFont coords :=
       match od_get "wght"%string coords with
       | Some w => with_glyf ttFont (if Qle_bool 700 w then bold else light)
       | None => with_glyf ttFont light
       end |}.

(** A simple glyph with one contour over all of its points. *)
Definition one_contour (points : list Glyf.Point) : Glyf.Glyph :=
  {| Glyf.coordinates := Some points;
     Glyf.numberOfContours := Some 1;
     Glyf.components := None;
     Glyf.isComposite := false;
     Glyf.endPtsOfContours := [Z.of_nat (length points) - 1] |}.

Definition empty_glyph : Glyf.Glyph :=
  {| Glyf.coordinates := Some [];
     Glyf.numberOfContours := Some 0;
     Glyf.components := None;
     Glyf.isComposite := false;
     Glyf.endPtsOfContours := [] |}.

Definition square : Glyf.Glyph :=
  one_contour [(0, 0); (100, 0); (100, 100); (0, 100)].
Definition pentagon : Glyf.Glyph :=
  one_contour [(0, 0); (100, 0); (100, 100); (50, 150); (0, 100)].





Definition wght_axis (default : Q) : Fvar.Axis :=
  {| Fvar.axisTag := "wght"; Fvar.defaultValue := default |}.
Definition wdth_axis : Fvar.Axis :=
  {| Fvar.axisTag := "wdth"; Fvar.defaultValue := 100%Q |}.

Definition regular_instance : Fvar.NamedInstance :=
  {| Fvar.subfamilyNameID := 256; Fvar.coordinates := [("wght"%string, 400%Q)] |}.
Definition bold_instance : Fvar.NamedInstance :=
  {| Fvar.subfamilyNameID := 257; Fvar.coordinates := [("wght"%string, 700%Q)] |}.

(** A name table with the given entries. *)
Definition names (entries : list (Z * string)) : Name.table :=
  {| Name.getDebugName := λ nameID, od_get nameID entries |}.

Definition stat_example : Stat.table :=
  {| Stat.DesignAxisRecord := [ {| Stat.AxisTag := "wght" |};
                                {| Stat.AxisTag := "ital" |} ];
     Stat.AxisValueArray :=
       [ {| Stat.Format := 1; Stat.AxisIndex := 0; Stat.Value := 400%Q;
            Stat.LinkedValue := 0%Q; Stat.NominalValue := 0%Q |};
         {| Stat.Format := 2; Stat.AxisIndex := 0; Stat.Value := 0%Q;
            Stat.LinkedValue := 0%Q; Stat.NominalValue := 700%Q |};
         {| Stat.Format := 3; Stat.AxisIndex := 1; Stat.Value := 0%Q;
            Stat.LinkedValue := 1%Q; Stat.NominalValue := 0%Q |};
         {| Stat.Format := 4; Stat.AxisIndex := 0; Stat.Value := 900%Q;
            Stat.LinkedValue := 900%Q; Stat.NominalValue := 900%Q |} ] |}.

(** A variable font with the instances Regular and Bold. *)
Definition example_font (axes : list Fvar.Axis) (usWeightClass : Z)
    (stat : option Stat.table) (name_entries : list (Z * string))
    (order : list string) : TTFont :=
  {| fvar := {| Fvar.axes := axes;
                Fvar.instances := [regular_instance; bold_instance] |};
     STAT := stat;
     OS2 := {| Os2.usWeightClass := usWeightClass |};
     name := names name_entries;
     glyf := ∅;
     getGlyphOrder := order |}.

Definition named_font : TTFont :=
  example_font [wght_axis 400%Q] 400 (Some stat_example)
               [(256, "Regular"%string); (257, "Bold"%string)] ["A"%string].

(** The same font without a STAT table. *)
Definition font_without_stat : TTFont :=
  example_font [wght_axis 400%Q] 400 None
               [(256, "Regular"%string); (257, "Bold"%string)] ["A"%string].

(** Only the name of the Bold instance resolves. *)
Definition half_named_font : TTFont :=
  example_font [wght_axis 400%Q] 400 (Some stat_example)
               [(257, "Bold"%string)] ["A"%string].

(** No instance name resolves. *)
Definition unnamed_font : TTFont :=
  example_font [wght_axis 400%Q] 400 (Some stat_example) [] ["A"%string].

(** A font whose only axis is [wdth]. *)
Definition width_font : TTFont :=
  example_font [wdth_axis] 400 (Some stat_example)
               [(256, "Regular"%string); (257, "Bold"%string)] ["A"%string].

(** A font whose weight class is 700 while its [wght] default is 400. *)
Definition heavy_font : TTFont :=
  example_font [wght_axis 400%Q] 700 (Some stat_example)
               [(256, "Regular"%string); (257, "Bold"%string)] ["A"%string].

(** ** The profile's list of checks *)

Definition CHECKS_NOT_TO_INCLUDE : list string :=
  [ "com.google.fonts/check/canonical_filename";
    "com.google.fonts/check/vendor_id";
    "com.google.fonts/check/fstype";
    "com.google.fonts/check/gasp";
    "com.google.fonts/check/family/italics_have_roman_counterparts" ].

(** [leave_this_one_out] returns [True] for a listed id and falls off its
    end, so returns [None], for any other. *)
Definition leave_this_one_out (checkid : string) : option bool :=
  if bool_decide (checkid ∈ CHECKS_NOT_TO_INCLUDE) then Some true else None.

(** Truth value of what [leave_this_one_out] returns. *)
Definition truthy (v : option bool) : bool := default false v.

Definition fontwerk_checks : list string :=
  [ "com.fontwerk/check/no_mac_entries";
    "com.fontwerk/check/vendor_id";
    "com.fontwerk/check/weight_class_fvar";
    "com.fontwerk/check/inconsistencies_between_fvar_stat";
    "com.fontwerk/check/interpolation_issues" ].

(** [FONTWERK_PROFILE_CHECKS], as a function of the list
    [GOOGLEFONTS_PROFILE_CHECKS] that it is computed from. *)
Definition FONTWERK_PROFILE_CHECKS (GOOGLEFONTS_PROFILE_CHECKS : list string)
    : list string :=
  List.filter (λ checkid, negb (truthy (leave_this_one_out checkid)))
              GOOGLEFONTS_PROFILE_CHECKS
  ++ fontwerk_checks.

(** The [filter_func] given to [profile.auto_register]:
    [not (type == 'check' and leave_this_one_out(id))]. *)
Definition filter_func (type id : string) : bool :=
  negb (if bool_decide (type = "check"%string)
        then truthy (leave_this_one_out id) else false).

(** ** com.fontwerk/check/no_mac_entries *)

Module NameRecord.
Record t := { nameID : Z; platformID : Z }.
End NameRecord.

Inductive MacText :=
| remove_name_id_text (nameID : Z)
| no_mac_entries_text.

Inductive MacPayload :=
| MacMessage (code : string) (text : MacText)
| MacPlain (text : MacText).

(** The loop over [ttFont["name"].names]: what it yields and the value of
    [passed] after it, from the value of [passed] before it. *)
Fixpoint no_mac_entries_loop (names : list NameRecord.t) (passed : bool)
    : list (Status * MacPayload) * bool :=
  match names with
  | [] => ([], passed)
  | rec :: rest =>
      if NameRecord.platformID rec =? 1 then
        let '(results, passed) := no_mac_entries_loop rest false in
        ((FAIL, MacMessage "mac-names"
                  (remove_name_id_text (NameRecord.nameID rec))) :: results,
         passed)
      else no_mac_entries_loop rest passed
  end.

(** The results of the check, on the records of the name table; the
    generator neither raises nor returns a value. *)
Definition com_fontwerk_check_name_no_mac_entries (names : list NameRecord.t)
    : list (Status * MacPayload) :=
  let '(results, passed) := no_mac_entries_loop names true in
  if passed then results ++ [(PASS, MacPlain no_mac_entries_text)]
  else results.

(** What holds of the dictionary [errs] at any time: its keys are titles of
    the check, no title occurs twice, and each set is not empty and holds
    names of the glyph order only. *)
Definition errs_in_order (order : list string)
    (errs : list (string * gset string)) : Prop :=
  NoDup (od_keys errs)
  ∧ ∀ title g_names, (title, g_names) ∈ errs →
      title ∈ titles ∧ g_names ≠ ∅ ∧ ∀ g_name, g_name ∈ g_names → g_name ∈ order.

(** The result that the check yields for one entry of [errs]. *)
Definition issue (entry : string * gset string) : Result :=
  (FAIL, Message "interpolation-issues" (interpolation_text entry.1 entry.2)).

(** What is done to [errs] does not depend on [errs]. *)
Definition uniform (f : list (string * gset string) →
                        outcome (list (string * gset string)))
    (g_name : string) : Prop :=
  (∃ e, ∀ errs, f errs = Raised e)
  ∨ (∀ errs, f errs = Done errs)
  ∨ (∃ title, ∀ errs, f errs = Done (add_dict_set errs title g_name)).

(** ** More concrete inputs *)

(** A short upstream list of checks: one that the profile leaves out and
    one that it keeps. *)
Definition upstream_example : list string :=
  [ "com.google.fonts/check/fstype";
    "com.google.fonts/check/name/trailing_spaces" ].

Definition fstype_check : string := "com.google.fonts/check/fstype".
Definition trailing_spaces_check : string :=
  "com.google.fonts/check/name/trailing_spaces".
Definition vendor_id_check : string := "com.fontwerk/check/vendor_id".

(** Name records: Windows and Mac entries for the name IDs 1 and 2. *)
Definition windows_record (nameID : Z) : NameRecord.t :=
  {| NameRecord.nameID := nameID; NameRecord.platformID := 3 |}.
Definition mac_record (nameID : Z) : NameRecord.t :=
  {| NameRecord.nameID := nameID; NameRecord.platformID := 1 |}.

(** Dictionaries of issues with one title and with two. *)
Definition one_title : list (string * gset string) :=
  [(points_title, {["A"%string]})].
Definition two_titles : list (string * gset string) :=
  [(points_title, {["A"%string]}); (direction_title, {["C"%string]})].

(** A stand-in for [degrees(atan2(y, x))] that is exact on the eight
    directions of the compass; any other vector gets 0. *)
Definition compass_degrees (y x : Z) : Q :=
  if y =? 0 then (if x <? 0 then 180%Q else 0%Q)
  else if x =? 0 then (if 0 <? y then 90%Q else (-90)%Q)
  else if y =? x then (if 0 <? x then 45%Q else (-135)%Q)
  else if y =? - x then (if 0 <? y then 135%Q else (-45)%Q)
  else 0%Q.

Definition compass_degrees_range (y x : Z) :
  (-180 <= compass_degrees y x <= 180)%Q.
Proof. unfold compass_degrees. repeat case_match; split; done. Qed.

Definition compass_math : Math :=
  {| degrees_atan2 := compass_degrees;
     degrees_atan2_range := compass_degrees_range |}.

(** The instances Regular and Bold, materialized with the given outlines
    of the glyph A. *)
Definition regular_and_bold (regular bold : Glyf.Glyph)
    : list (option string * TTFont) :=
  [(Some "Regular"%string, with_glyf named_font {["A"%string := regular]});
   (Some "Bold"%string, with_glyf named_font {["A"%string := bold]})].




(** A font with two axes tagged [wght], of defaults 300 and 400. *)
Definition two_weights_font (usWeightClass : Z) : TTFont :=
  example_font [wght_axis 300%Q; wght_axis 400%Q; wdth_axis] usWeightClass
               (Some stat_example)
               [(256, "Regular"%string); (257, "Bold"%string)] ["A"%string].

(** A font whose [wght] default is 400.5. *)
Definition fraction_font : TTFont :=
  example_font [wght_axis (801 # 2)] 400 (Some stat_example)
               [(256, "Regular"%string); (257, "Bold"%string)] ["A"%string].

(** * Properties *)

(** ** Ordered dictionaries *)

Section odict_facts.
Context {K V : Type} `{EqDecision K}.
Implicit Types (k : K) (v : V) (d : list (K * V)).

Lemma od_get_set_eq k v d : od_get k (od_set k v d) = Some v.
Proof.
  induction d as [|[k' v'] d IH]; simpl.
  - by rewrite decide_True.
  - destruct (decide (k' = k)) as [->|Hne]; simpl.
    + by rewrite decide_True.
    + by rewrite decide_False.
Qed.

Lemma od_get_set_ne k k' v d : k ≠ k' → od_get k' (od_set k v d) = od_get k' d.
Proof.
  intros Hne. induction d as [|[k0 v0] d IH]; simpl.
  - by rewrite decide_False.
  - destruct (decide (k0 = k)) as [->|Hk]; simpl.
    + by rewrite !decide_False.
    + destruct (decide (k0 = k')); [done|apply IH].
Qed.

Lemma od_set_fresh k v d : od_get k d = None → od_set k v d = d ++ [(k, v)].
Proof.
  induction d as [|[k' v'] d IH]; simpl; [done|].
  destruct (decide (k' = k)); [done|]. intros Hd. by rewrite IH.
Qed.
End odict_facts.

(** ** The weight class check *)

Lemma default_axis_values_other (t : string) (axes : list Fvar.Axis) d :
  (∀ a, a ∈ axes → Fvar.axisTag a ≠ t) →
  od_get t (foldl (λ d a, od_set (Fvar.axisTag a) (Fvar.defaultValue a) d) d axes)
  = od_get t d.
Proof.
  revert d. induction axes as [|x axes IH]; intros d Hno; simpl; [done|].
  rewrite IH.
  - apply od_get_set_ne, Hno. by left.
  - intros a Ha. apply Hno. by right.
Qed.

Lemma default_axis_values_unique (t : string) (axes : list Fvar.Axis) d a :
  a ∈ axes → Fvar.axisTag a = t →
  (∀ b, b ∈ axes → Fvar.axisTag b = t → b = a) →
  od_get t (foldl (λ d a, od_set (Fvar.axisTag a) (Fvar.defaultValue a) d) d axes)
  = Some (Fvar.defaultValue a).
Proof.
  revert d. induction axes as [|x axes IH]; intros d Ha Ht Huniq; simpl.
  - by apply elem_of_nil in Ha.
  - destruct (decide (Exists (λ b, Fvar.axisTag b = t) axes)) as [Hex|Hnex].
    + apply Exists_exists in Hex as (b & Hb & Hbt).
      assert (b = a) as -> by (apply Huniq; [by right|done]).
      apply IH; [done..|]. intros c Hc. apply Huniq. by right.
    + assert (x = a) as ->.
      { apply elem_of_cons in Ha as [->|Ha]; [done|].
        exfalso. apply Hnex, Exists_exists. eauto. }
      rewrite default_axis_values_other.
      * rewrite Ht. apply od_get_set_eq.
      * intros b Hb Hbt. apply Hnex, Exists_exists. eauto.
Qed.

(** [int] moves a float by less than one. *)
Lemma int_within_one (x : Q) : (Qabs (x - inject_Z (int x)) < 1)%Q.
Proof.
  destruct x as [n d]. unfold int. simpl Qnum. simpl Qden.
  pose proof (Z.quot_rem' n (Z.pos d)) as Hqr.
  pose proof (Z.rem_bound_abs n (Z.pos d)) as Hr.
  set (q := n ÷ Z.pos d) in *. set (r := Z.rem n (Z.pos d)) in *.
  assert ((n # d) - inject_Z q == (r # d))%Q as ->.
  { unfold Qeq, Qminus, Qplus, Qopp, inject_Z. simpl. nia. }
  unfold Qabs, Qlt. simpl. lia.
Qed.

Lemma int_differs (x : Q) (z : Z) :
  (1 <= Qabs (x - inject_Z z))%Q → int x ≠ z.
Proof.
  intros Hge <-. pose proof (int_within_one x) as Hlt.
  apply (Qlt_irrefl 1). eapply Qle_lt_trans; eauto.
Qed.

(** C3: with a [wght] axis, the check passes when the default of the axis,
    taken as an integer, is [usWeightClass], and fails with exactly one
    [bad-weight-class] result when the integers differ, in particular
    whenever the two values are at least 1 apart. *)
Theorem weight_class_fvar_compares_integers (ttFont : TTFont) (a : Fvar.Axis) :
  a ∈ Fvar.axes (fvar ttFont) →
  Fvar.axisTag a = "wght"%string →
  (∀ b, b ∈ Fvar.axes (fvar ttFont) → Fvar.axisTag b = "wght"%string → b = a) →
  let os2_value := Os2.usWeightClass (OS2 ttFont) in
  let fvar_value := Fvar.defaultValue a in
  let run := com_fontwerk_check_weight_class_fvar ttFont in
  let failure := (FAIL, Message "bad-weight-class"
                          (bad_weight_class_text os2_value fvar_value)) in
  (int fvar_value = os2_value →
     run = Gen [(PASS, Plain (weight_class_matches_text os2_value))] (Done None)
     ∧ findings "bad-weight-class" run = [])
  ∧ (int fvar_value ≠ os2_value →
       run = Gen [failure] (Done None)
       ∧ findings "bad-weight-class" run = [failure])
  ∧ ((1 <= Qabs (fvar_value - inject_Z os2_value))%Q →
       run = Gen [failure] (Done None)
       ∧ findings "bad-weight-class" run = [failure]).
Proof.
  intros Ha Ht Huniq os2_value fvar_value run failure.
  assert (Hget : od_get "wght"%string (default_axis_values ttFont)
                 = Some fvar_value).
  { unfold default_axis_values. by apply default_axis_values_unique. }
  assert (Hne : int fvar_value ≠ os2_value →
                run = Gen [failure] (Done None)
                ∧ findings "bad-weight-class" run = [failure]).
  { intros Hdiff. subst run. unfold com_fontwerk_check_weight_class_fvar.
    rewrite Hget. fold os2_value.
    destruct (Z.eqb_spec os2_value (int fvar_value)) as [Heq|_]; [congruence|].
    done. }
  split; [|split; [done|]].
  - intros Heq. subst run. unfold com_fontwerk_check_weight_class_fvar.
    rewrite Hget. fold os2_value. rewrite Heq, Z.eqb_refl. done.
  - intros Hfar. by apply Hne, int_differs.
Qed.

(** C9: without a [wght] axis the check yields nothing, neither a failure
    nor a pass. *)
Theorem weight_class_fvar_without_wght_is_silent (ttFont : TTFont) :
  (∀ a, a ∈ Fvar.axes (fvar ttFont) → Fvar.axisTag a ≠ "wght"%string) →
  com_fontwerk_check_weight_class_fvar ttFont = Gen [] (Done None).
Proof.
  intros Hno. unfold com_fontwerk_check_weight_class_fvar, default_axis_values.
  by rewrite default_axis_values_other.
Qed.

(** ** The fvar/STAT check *)

(** C1: without a STAT table the generator ends at once through
    [return FAIL, Message(...)]: the pair is the value of the [return], not
    a result, so nothing at all is yielded and no instance is looked at. *)
Theorem missing_stat_returns_without_yielding (ttFont : TTFont) :
  STAT ttFont = None →
  let run := com_fontwerk_check_inconsistencies_between_fvar_stat ttFont in
  yielded run = []
  ∧ findings "missing-stat-table" run = []
  ∧ finish run
    = Done (Some (FAIL, Message "missing-stat-table" missing_stat_text)).
Proof.
  intros Hstat. unfold com_fontwerk_check_inconsistencies_between_fvar_stat.
  by rewrite Hstat.
Qed.

Lemma gen_for_app {A} (l1 l2 : list A) (body : A → gen) :
  gen_for (l1 ++ l2) body = gen_seq (gen_for l1 body) (gen_for l2 body).
Proof.
  induction l1 as [|x l1 IH]; simpl.
  - unfold gen_seq. simpl. by destruct (gen_for l2 body).
  - rewrite IH. unfold gen_seq.
    destruct (body x) as [ys [[r|]|e]]; simpl; try done.
    destruct (gen_for l1 body) as [ys' [[r'|]|e']]; simpl; try done.
    by rewrite app_assoc.
Qed.

(** C8: an instance whose name ID does not resolve contributes exactly one
    [missing-name-id] result, whatever its coordinates and the STAT table
    are, and the loop goes on with the instances after it. *)
Theorem unresolved_name_id_is_reported_once (ttFont : TTFont)
    (stat_table : Stat.table) (before after : list Fvar.NamedInstance)
    (ins : Fvar.NamedInstance) :
  STAT ttFont = Some stat_table →
  Fvar.instances (fvar ttFont) = before ++ ins :: after →
  Name.getDebugName (name ttFont) (Fvar.subfamilyNameID ins) = None →
  let missing := (FAIL, Message "missing-name-id"
                          (missing_name_id_text (Fvar.subfamilyNameID ins))) in
  let body := instance_body ttFont stat_table in
  body ins = Gen [missing] (Done None)
  ∧ com_fontwerk_check_inconsistencies_between_fvar_stat ttFont
    = gen_seq (gen_for before body) (gen_yield missing (gen_for after body))
  ∧ (finish (gen_for before body) = Done None →
     yielded (com_fontwerk_check_inconsistencies_between_fvar_stat ttFont)
     = yielded (gen_for before body) ++ missing :: yielded (gen_for after body)
     ∧ finish (com_fontwerk_check_inconsistencies_between_fvar_stat ttFont)
       = finish (gen_for after body)).
Proof.
  intros Hstat Hins Hname missing body.
  assert (Hbody : body ins = Gen [missing] (Done None)).
  { subst body. unfold instance_body. by rewrite Hname. }
  assert (Hrun : com_fontwerk_check_inconsistencies_between_fvar_stat ttFont
    = gen_seq (gen_for before body) (gen_yield missing (gen_for after body))).
  { unfold com_fontwerk_check_inconsistencies_between_fvar_stat.
    rewrite Hstat, Hins, gen_for_app. simpl. fold body. by rewrite Hbody. }
  split; [done|split; [done|]].
  intros Hfin. rewrite Hrun. unfold gen_seq. by rewrite Hfin.
Qed.







(** ** The dictionary of errors *)

Section odict_set_facts.
Context {K V : Type} `{EqDecision K}.
Implicit Types (k : K) (v : V) (d : list (K * V)).

Lemma od_set_set k v v' d : od_set k v (od_set k v' d) = od_set k v d.
Proof.
  induction d as [|[k0 v0] d IH]; simpl.
  - by rewrite decide_True.
  - destruct (decide (k0 = k)) as [->|Hk]; simpl.
    + by rewrite decide_True.
    + rewrite decide_False by done. by rewrite IH.
Qed.
End odict_set_facts.

Lemma add_dict_set_eq (d : list (string * gset string)) (t g : string) :
  add_dict_set d t g = od_set t (default ∅ (od_get t d) ∪ {[g]}) d.
Proof.
  unfold add_dict_set. destruct (od_get t d) as [s|] eqn:Hget.
  - by rewrite Hget.
  - by rewrite od_get_set_eq, od_set_set.
Qed.

Lemma add_dict_set_other (d : list (string * gset string)) (t t' g : string) :
  t ≠ t' → od_get t' (add_dict_set d t g) = od_get t' d.
Proof. intros Hne. rewrite add_dict_set_eq. by apply od_get_set_ne. Qed.

Lemma add_dict_set_get (d : list (string * gset string)) (t g : string) :
  od_get t (add_dict_set d t g) = Some (default ∅ (od_get t d) ∪ {[g]}).
Proof. rewrite add_dict_set_eq. apply od_get_set_eq. Qed.

Lemma add_dict_set_twice (d : list (string * gset string)) (t g : string) :
  add_dict_set (add_dict_set d t g) t g = add_dict_set d t g.
Proof.
  rewrite (add_dict_set_eq (add_dict_set d t g)), add_dict_set_get. simpl.
  rewrite add_dict_set_eq, od_set_set. f_equal.
  by rewrite <- (assoc_L (∪)), (idemp_L (∪)).
Qed.


(** ** The tests on one glyph *)

Lemma list_to_set_constant `{Countable A} (l : list A) (x : A) :
  l ≠ [] → (∀ y, y ∈ l → y = x) → list_to_set l =@{gset A} {[x]}.
Proof.
  intros Hne Hall. apply set_eq. intros y.
  rewrite elem_of_list_to_set, elem_of_singleton. split; [apply Hall|].
  intros ->. destruct l as [|z l]; [done|].
  rewrite (Hall z) by (by left). by left.
Qed.

Lemma size_list_to_set_constant `{Countable A} (l : list A) (x : A) :
  (∀ y, y ∈ l → y = x) → (size (list_to_set l : gset A) ≤ 1)%nat.
Proof.
  intros Hall. destruct l as [|z l].
  - rewrite list_to_set_nil, size_empty. lia.
  - rewrite (list_to_set_constant (z :: l) x); [|done|done].
    by rewrite size_singleton.
Qed.


Lemma points_set_skip (before after : list (option Glyf.Glyph))
    (g : option Glyf.Glyph) :
  point_count g = None →
  points_set (before ++ g :: after) = points_set (before ++ after).
Proof.
  intros Hg. unfold points_set. rewrite !omap_app. simpl. by rewrite Hg.
Qed.

Lemma contours_set_skip (before after : list (option Glyf.Glyph))
    (g : option Glyf.Glyph) :
  contour_count g = None →
  contours_set (before ++ g :: after) = contours_set (before ++ after).
Proof.
  intros Hg. unfold contours_set. rewrite !omap_app. simpl. by rewrite Hg.
Qed.

Section one_glyph.
Context {math : Math}.
Implicit Types (errs : list (string * gset string)) (g_name : string).
Implicit Types (glyphs : list (option Glyf.Glyph)).

Lemma contours_loop_outcomes errs g_name g previous_g ns errs' :
  contours_loop errs g_name g previous_g ns = Done errs' →
  errs' = errs ∨ errs' = add_dict_set errs direction_title g_name.
Proof.
  induction ns as [|n ns IH]; simpl; [left; congruence|].
  destruct (coordinates_of g) as [c|]; simpl; [|done].
  destruct (py_getitem c n) as [e|]; simpl; [|done].
  destruct (py_getitem c (n - 1)) as [b|]; simpl; [|done].
  destruct (coordinates_of previous_g) as [pc|]; simpl; [|done].
  destruct (py_getitem pc n) as [pe|]; simpl; [|done].
  destruct (py_getitem pc (n - 1)) as [pb|]; simpl; [|done].
  destruct (close_enough _ _ _); [done|].
  destruct (close_enough _ _ _); simpl; [done|].
  right. congruence.
Qed.

Lemma instances_loop_outcomes errs g_name previous_g glyphs errs' :
  instances_loop errs g_name previous_g glyphs = Done errs' →
  errs' = errs ∨ errs' = add_dict_set errs direction_title g_name.
Proof.
  revert errs previous_g.
  induction glyphs as [|g glyphs IH]; intros errs previous_g; simpl.
  - left; congruence.
  - destruct (endPtsOfContours_of g) as [ns|]; simpl; [|done].
    destruct (contours_loop errs g_name g previous_g ns) as [errs1|] eqn:Hc;
      simpl; [|done].
    intros Hrest. apply IH in Hrest.
    apply contours_loop_outcomes in Hc as [-> | ->]; [done|].
    rewrite add_dict_set_twice in Hrest. destruct Hrest; by right.
Qed.
End one_glyph.

Section topology.
Context {math : Math}.
Implicit Types (errs : list (string * gset string)) (g_name : string).
Implicit Types (glyphs : list (option Glyf.Glyph)).

Lemma direction_stage_outcomes errs g_name glyphs errs' :
  direction_stage errs g_name glyphs = Done errs' →
  errs' = errs ∨ errs' = add_dict_set errs direction_title g_name.
Proof.
  destruct glyphs as [|g0 rest]; simpl; [left; congruence|].
  apply instances_loop_outcomes.
Qed.

Lemma composite_stage_outcomes errs g_name glyphs errs' :
  composite_stage errs g_name glyphs = Done errs' →
  errs' = errs
  ∨ ∃ t, t ∈ [composite_title; components_title; direction_title]
         ∧ errs' = add_dict_set errs t g_name.
Proof.
  unfold composite_stage, components_stage.
  destruct (composite_set glyphs) as [cs|]; simpl; [|done].
  case_bool_decide.
  { intros [= <-]. right. exists composite_title. split; [|done].
    by left. }
  case_bool_decide.
  { intros [= <-]. right. exists components_title. split; [|done].
    right. by left. }
  intros [-> | ->]%direction_stage_outcomes; [by left|].
  right. exists direction_title. split; [|done]. do 2 right. by left.
Qed.

Lemma check_glyph_outcomes errs g_name glyphs errs' :
  check_glyph errs g_name glyphs = Done errs' →
  errs' = errs ∨ ∃ t, t ∈ titles ∧ errs' = add_dict_set errs t g_name.
Proof.
  unfold check_glyph, contours_stage.
  case_bool_decide; [left; congruence|].
  case_bool_decide.
  { intros [= <-]. right. exists points_title. split; [by left|done]. }
  case_bool_decide.
  { intros [= <-]. right. exists contours_title. split; [|done].
    right. by left. }
  intros [-> |(t & Ht & ->)]%composite_stage_outcomes; [by left|].
  right. exists t. split; [|done]. by do 2 right.
Qed.

Lemma check_glyph_points_differ errs g_name glyphs :
  (1 < size (points_set glyphs))%nat →
  check_glyph errs g_name glyphs
  = Done (add_dict_set errs points_title g_name).
Proof.
  intros Hp. unfold check_glyph.
  rewrite bool_decide_eq_false_2 by lia.
  by rewrite bool_decide_eq_true_2.
Qed.

Lemma check_glyph_same_points errs g_name glyphs :
  size (points_set glyphs) = 1%nat →
  check_glyph errs g_name glyphs = contours_stage errs g_name glyphs.
Proof.
  intros Hp. unfold check_glyph.
  by rewrite !bool_decide_eq_false_2 by lia.
Qed.

Lemma check_glyph_contours_differ errs g_name glyphs :
  size (points_set glyphs) = 1%nat →
  (1 < size (contours_set glyphs))%nat →
  check_glyph errs g_name glyphs
  = Done (add_dict_set errs contours_title g_name).
Proof.
  intros Hp Hc. rewrite check_glyph_same_points by done.
  unfold contours_stage. by rewrite bool_decide_eq_true_2.
Qed.

End topology.

Section empty_and_absent.
Context {math : Math}.
Implicit Types (errs : list (string * gset string)) (g_name : string).
Implicit Types (glyphs : list (option Glyf.Glyph)).

Lemma check_glyph_without_points errs g_name glyphs :
  size (points_set glyphs) = 0%nat → check_glyph errs g_name glyphs = Done errs.
Proof. intros Hp. unfold check_glyph. by rewrite bool_decide_eq_true_2. Qed.

Lemma composite_stage_keeps_counts errs g_name glyphs errs' :
  composite_stage errs g_name glyphs = Done errs' →
  od_get points_title errs' = od_get points_title errs
  ∧ od_get contours_title errs' = od_get contours_title errs.
Proof.
  intros [->|(t & Ht & ->)]%composite_stage_outcomes; [done|].
  rewrite !elem_of_cons, elem_of_nil in Ht.
  destruct Ht as [->|[->|[->|[]]]];
    split; by apply add_dict_set_other.
Qed.

(** C10: an instance in which the glyph has no points does not enter the
    set of point counts, and one whose contour count is zero or missing
    does not enter the set of contour counts.  So when the instances that
    do have points agree, a glyph that is empty elsewhere goes on to the
    test on composite status, and that and the later tests leave the two
    count categories alone. *)
Theorem empty_instances_are_left_out_of_the_counts errs g_name :
  (∀ before after g,
     Glyf.coordinates g = Some [] ∨ Glyf.coordinates g = None →
     points_set (before ++ Some g :: after) = points_set (before ++ after))
  ∧ (∀ before after g,
       Glyf.numberOfContours g = Some 0 ∨ Glyf.numberOfContours g = None →
       contours_set (before ++ Some g :: after)
       = contours_set (before ++ after))
  ∧ (∀ glyphs n c,
       Forall (λ g, point_count g = None ∨ point_count g = Some n) glyphs →
       Exists (λ g, point_count g = Some n) glyphs →
       Forall (λ g, contour_count g = None ∨ contour_count g = Some c)
              glyphs →
       check_glyph errs g_name glyphs = composite_stage errs g_name glyphs
       ∧ ∀ errs', check_glyph errs g_name glyphs = Done errs' →
           od_get points_title errs' = od_get points_title errs
           ∧ od_get contours_title errs' = od_get contours_title errs).
Proof.
  split; [|split].
  - intros before after g Hg. apply points_set_skip.
    unfold point_count. simpl. by destruct Hg as [-> | ->].
  - intros before after g Hg. apply contours_set_skip.
    unfold contour_count. simpl. by destruct Hg as [-> | ->].
  - intros glyphs n c Hpoints Hsome Hcontours.
    assert (Hp : size (points_set glyphs) = 1%nat).
    { unfold points_set. rewrite (list_to_set_constant _ n).
      - apply size_singleton.
      - apply Exists_exists in Hsome as (g & Hg & Hn).
        intros Hnil. assert (Hin : n ∈ omap point_count glyphs).
        { apply list_elem_of_omap. eauto. }
        rewrite Hnil in Hin. by apply elem_of_nil in Hin.
      - intros y (g & Hg & Hy)%list_elem_of_omap.
        rewrite Forall_forall in Hpoints.
        destruct (Hpoints g Hg); congruence. }
    assert (Hc : (size (contours_set glyphs) ≤ 1)%nat).
    { apply (size_list_to_set_constant _ c).
      intros y (g & Hg & Hy)%list_elem_of_omap.
      rewrite Forall_forall in Hcontours.
      destruct (Hcontours g Hg); congruence. }
    assert (Heq : check_glyph errs g_name glyphs
                  = composite_stage errs g_name glyphs).
    { rewrite check_glyph_same_points by done. unfold contours_stage.
      by rewrite bool_decide_eq_false_2 by lia. }
    split; [done|]. rewrite Heq. apply composite_stage_keeps_counts.
Qed.

Lemma gather_all_absent (font_instances : list (option string * TTFont))
    g_name :
  Forall (λ kv, glyf kv.2 !! g_name = None) font_instances →
  size (points_set (gather font_instances g_name)) = 0%nat.
Proof.
  intros Hall. unfold points_set, gather.
  assert (omap point_count ((λ kv, glyf kv.2 !! g_name) <$> font_instances)
          = []) as ->.
  { induction Hall as [|kv l Hkv _ IH]; [done|].
    rewrite fmap_cons. simpl. by rewrite Hkv. }
  by rewrite list_to_set_nil, size_empty.
Qed.

(** C2, as the code has it: an instance without the glyph is not passed
    over when the outlines are gathered, it gives a [None] entry; that
    entry counts neither as a point count nor as a contour count.  A glyph
    without points in any instance, so also one that no instance has, is
    passed over, and a glyph whose point counts or contour counts differ
    is entered in the category; in each of these cases the loop goes on
    with the next glyph name. *)
Theorem absent_glyph_gives_a_None_entry
    (font_instances : list (option string * TTFont)) errs g_name :
  length (gather font_instances g_name) = length font_instances
  ∧ (∀ i key font, font_instances !! i = Some (key, font) →
       glyf font !! g_name = None →
       gather font_instances g_name !! i = Some None)
  ∧ (∀ before after,
       points_set (before ++ None :: after) = points_set (before ++ after)
       ∧ contours_set (before ++ None :: after)
         = contours_set (before ++ after))
  ∧ (Forall (λ kv, glyf kv.2 !! g_name = None) font_instances →
       check_glyph errs g_name (gather font_instances g_name) = Done errs)
  ∧ (∀ glyphs,
       (size (points_set glyphs) = 0%nat →
          check_glyph errs g_name glyphs = Done errs)
       ∧ ((1 < size (points_set glyphs))%nat →
          check_glyph errs g_name glyphs
          = Done (add_dict_set errs points_title g_name))
       ∧ (size (points_set glyphs) = 1%nat →
          (1 < size (contours_set glyphs))%nat →
          check_glyph errs g_name glyphs
          = Done (add_dict_set errs contours_title g_name)))
  ∧ (∀ errs' rest,
       check_glyph errs g_name (gather font_instances g_name) = Done errs' →
       glyph_order_loop font_instances errs (g_name :: rest)
       = glyph_order_loop font_instances errs' rest).
Proof.
  split; [|split; [|split; [|split; [|split]]]].
  - unfold gather. apply length_fmap.
  - intros i key font Hi Hg. unfold gather.
    rewrite list_lookup_fmap, Hi. simpl. by rewrite Hg.
  - intros before after. split.
    + by apply points_set_skip.
    + by apply contours_set_skip.
  - intros Hall. by apply check_glyph_without_points, gather_all_absent.
  - intros glyphs. split; [apply check_glyph_without_points|].
    split; [apply check_glyph_points_differ|].
    apply check_glyph_contours_differ.
  - intros errs' rest Hcheck. simpl. by rewrite Hcheck.
Qed.
End empty_and_absent.

(** ** The tolerance on bearings *)









Section direction.
Context {math : Math}.
Implicit Types (errs : list (string * gset string)) (g_name : string).
Implicit Types (previous_g g : Glyf.Glyph).





End direction.

(** ** Materialization *)

Section materialize_facts.
Context {K V A : Type} `{EqDecision K}.
Implicit Types (d : list (K * V)) (l : list A).

Lemma od_get_app_fresh (k k' : K) (v : V) d :
  od_get k (d ++ [(k', v)])
  = match od_get k d with
    | Some x => Some x
    | None => if decide (k' = k) then Some v else None
    end.
Proof.
  induction d as [|[k0 v0] d IH]; simpl; [done|].
  by destruct (decide (k0 = k)).
Qed.

Lemma foldl_od_set_distinct (key : A → K) (val : A → V) l d :
  NoDup (key <$> l) →
  (∀ x, x ∈ l → od_get (key x) d = None) →
  foldl (λ d x, od_set (key x) (val x) d) d l
  = d ++ ((λ x, (key x, val x)) <$> l).
Proof.
  revert d. induction l as [|x l IH]; intros d Hnodup Hfresh; simpl.
  - by rewrite app_nil_r.
  - rewrite fmap_cons in Hnodup. apply NoDup_cons in Hnodup as [Hx Hl].
    rewrite od_set_fresh by (apply Hfresh; by left).
    rewrite IH; [by rewrite <- app_assoc|done|].
    intros y Hy. rewrite od_get_app_fresh, Hfresh by (by right).
    rewrite decide_False; [done|]. intros Heq. apply Hx.
    rewrite Heq. by apply list_elem_of_fmap_2.
Qed.

Lemma od_set_keeps (k k' : K) (v : V) d :
  is_Some (od_get k d) → is_Some (od_get k (od_set k' v d)).
Proof.
  intros Hk. destruct (decide (k' = k)) as [-> |Hne].
  - rewrite od_get_set_eq. by eexists.
  - by rewrite od_get_set_ne.
Qed.

Lemma foldl_od_set_keeps (key : A → K) (val : A → V) l d k :
  is_Some (od_get k d) →
  is_Some (od_get k (foldl (λ d x, od_set (key x) (val x) d) d l)).
Proof.
  revert d. induction l as [|x l IH]; intros d Hk; simpl; [done|].
  by apply IH, od_set_keeps.
Qed.

Lemma foldl_od_set_has_key (key : A → K) (val : A → V) l d x :
  x ∈ l →
  is_Some (od_get (key x) (foldl (λ d x, od_set (key x) (val x) d) d l)).
Proof.
  revert d. induction l as [|y l IH]; intros d Hx; simpl.
  - by apply elem_of_nil in Hx.
  - apply elem_of_cons in Hx as [-> |Hx]; [|by apply IH].
    apply foldl_od_set_keeps. rewrite od_get_set_eq. by eexists.
Qed.

Lemma foldl_od_set_other (key : A → K) (val : A → V) l d k :
  (∀ x, x ∈ l → key x ≠ k) →
  od_get k (foldl (λ d x, od_set (key x) (val x) d) d l) = od_get k d.
Proof.
  revert d. induction l as [|x l IH]; intros d Hother; simpl; [done|].
  rewrite IH by (intros y Hy; apply Hother; by right).
  apply od_get_set_ne, Hother. by left.
Qed.

Lemma foldl_od_set_last (key : A → K) (val : A → V) before x after d :
  (∀ y, y ∈ after → key y ≠ key x) →
  od_get (key x)
    (foldl (λ d x, od_set (key x) (val x) d) d (before ++ x :: after))
  = Some (val x).
Proof.
  intros Hafter. rewrite foldl_app. simpl.
  rewrite foldl_od_set_other by done. apply od_get_set_eq.
Qed.

Lemma length_od_set (k : K) (v : V) d :
  (length (od_set k v d) ≤ S (length d))%nat.
Proof.
  induction d as [|[k0 v0] d IH]; simpl; [lia|].
  destruct (decide (k0 = k)); simpl; lia.
Qed.

Lemma length_foldl_od_set (key : A → K) (val : A → V) l d :
  (length (foldl (λ d x, od_set (key x) (val x) d) d l)
   ≤ length d + length l)%nat.
Proof.
  revert d. induction l as [|x l IH]; intros d; simpl; [lia|].
  etrans; [apply IH|]. pose proof (length_od_set (key x) (val x) d). lia.
Qed.
End materialize_facts.

(** C5, as the code has it: the dictionary of instances is keyed by the
    name that [getDebugName] gives, [None] when the ID does not resolve.
    When these keys are pairwise different, there is one entry for each
    named instance, in the order of [fvar], the one with the unresolved
    name included.  In any case the key of every instance is in the
    dictionary, it leads to the font of the last instance with that key,
    and there are never more entries than instances. *)
Theorem materialize_one_entry_per_distinct_name {instancer : Instancer}
    (ttFont : TTFont) :
  let key ins :=
    Name.getDebugName (name ttFont) (Fvar.subfamilyNameID ins) in
  let entry ins :=
    (key ins, instantiateVariableFont ttFont (Fvar.coordinates ins)) in
  (NoDup (key <$> Fvar.instances (fvar ttFont)) →
     materialize ttFont = entry <$> Fvar.instances (fvar ttFont))
  ∧ (∀ ins, ins ∈ Fvar.instances (fvar ttFont) →
       is_Some (od_get (key ins) (materialize ttFont)))
  ∧ (∀ before ins after,
       Fvar.instances (fvar ttFont) = before ++ ins :: after →
       (∀ later, later ∈ after → key later ≠ key ins) →
       od_get (key ins) (materialize ttFont) = Some (entry ins).2)
  ∧ (length (materialize ttFont)
     ≤ length (Fvar.instances (fvar ttFont)))%nat.
Proof.
  intros key entry. unfold materialize. split; [|split; [|split]].
  - intros Hnodup.
    by rewrite (foldl_od_set_distinct key
                  (λ ins, instantiateVariableFont ttFont
                            (Fvar.coordinates ins))).
  - intros ins Hins.
    apply (foldl_od_set_has_key key
             (λ ins, instantiateVariableFont ttFont (Fvar.coordinates ins))).
    done.
  - intros before ins after -> Hafter.
    by apply (foldl_od_set_last key
                (λ ins, instantiateVariableFont ttFont
                          (Fvar.coordinates ins))).
  - apply (length_foldl_od_set key
             (λ ins, instantiateVariableFont ttFont (Fvar.coordinates ins))).
Qed.

(** ** The theorems at concrete fonts *)

Lemma missing_stat_returns_without_yielding_witness :
  let run :=
    com_fontwerk_check_inconsistencies_between_fvar_stat font_without_stat in
  yielded run = []
  ∧ findings "missing-stat-table" run = []
  ∧ finish run
    = Done (Some (FAIL, Message "missing-stat-table" missing_stat_text)).
Proof.
  apply (missing_stat_returns_without_yielding font_without_stat).
  reflexivity.
Defined.

Lemma weight_class_fvar_compares_integers_witness :
  com_fontwerk_check_weight_class_fvar named_font
  = Gen [(PASS, Plain (weight_class_matches_text 400))] (Done None)
  ∧ findings "bad-weight-class"
      (com_fontwerk_check_weight_class_fvar heavy_font)
    = [(FAIL, Message "bad-weight-class" (bad_weight_class_text 700 400%Q))]
  ∧ com_fontwerk_check_weight_class_fvar heavy_font
    = Gen [(FAIL, Message "bad-weight-class"
                    (bad_weight_class_text 700 400%Q))] (Done None).
Proof.
  assert (Hunique : ∀ axes b, axes = [wght_axis 400%Q] → b ∈ axes →
                      Fvar.axisTag b = "wght"%string → b = wght_axis 400%Q).
  { intros axes b -> Hb _. by apply list_elem_of_singleton in Hb. }
  destruct (weight_class_fvar_compares_integers named_font
              (wght_axis 400%Q)) as (Hpass & _ & _).
  { by left. }
  { reflexivity. }
  { intros b. by apply Hunique. }
  destruct (weight_class_fvar_compares_integers heavy_font
              (wght_axis 400%Q)) as (_ & Hdiffer & Hfar).
  { by left. }
  { reflexivity. }
  { intros b. by apply Hunique. }
  split; [|split].
  - apply Hpass. reflexivity.
  - apply Hdiffer. by vm_compute.
  - apply Hfar. by vm_compute.
Defined.

Lemma weight_class_fvar_without_wght_is_silent_witness :
  com_fontwerk_check_weight_class_fvar width_font = Gen [] (Done None).
Proof.
  apply (weight_class_fvar_without_wght_is_silent width_font).
  intros a Ha. apply list_elem_of_singleton in Ha. by subst.
Defined.


Lemma unresolved_name_id_is_reported_once_witness :
  let missing :=
    (FAIL, Message "missing-name-id" (missing_name_id_text 256)) in
  instance_body half_named_font stat_example regular_instance
  = Gen [missing] (Done None)
  ∧ yielded
      (com_fontwerk_check_inconsistencies_between_fvar_stat half_named_font)
    = [missing]
  ∧ finish
      (com_fontwerk_check_inconsistencies_between_fvar_stat half_named_font)
    = Done None.
Proof.
  intros missing.
  destruct (unresolved_name_id_is_reported_once half_named_font stat_example
              [] [bold_instance] regular_instance)
    as (Hbody & _ & Hrun); [reflexivity..|].
  destruct Hrun as [Hyielded Hfinish]; [reflexivity|].
  split; [exact Hbody|]. split.
  - rewrite Hyielded. reflexivity.
  - rewrite Hfinish. reflexivity.
Defined.

(** A font in which the Bold instance has lost the glyph aborts the check:
    the [None] entry reaches [isComposite()]. *)
Lemma interpolation_check_raises_on_absent_glyph :
  gather (materialize (instancer := two_masters {["A"%string := square]} ∅)
            named_font) "A"
  = [Some square; None]
  ∧ com_fontwerk_check_interpolation_issues
      (math := whole_degrees_math)
      (instancer := two_masters {["A"%string := square]} ∅) named_font
    = Gen [] (Raised AttributeError).
Proof. split; by vm_compute. Defined.

Lemma absent_glyph_gives_a_None_entry_witness :
  let font_instances :=
    materialize (instancer := two_masters {["A"%string := square]} ∅) named_font in
  gather font_instances "A" !! 1%nat = Some None
  ∧ check_glyph (math := whole_degrees_math) [] "B"
      (gather font_instances "B") = Done []
  ∧ glyph_order_loop (math := whole_degrees_math) font_instances [] ["B"; "C"]
    = glyph_order_loop (math := whole_degrees_math) font_instances [] ["C"].
Proof.
  intros font_instances.
  destruct (absent_glyph_gives_a_None_entry (math := whole_degrees_math)
              font_instances [] "A") as (_ & Hentry & _).
  destruct (absent_glyph_gives_a_None_entry (math := whole_degrees_math)
              font_instances [] "B") as (_ & _ & _ & Habsent & _ & Hnext).
  assert (Hall : Forall (λ kv, glyf kv.2 !! "B" = None) font_instances).
  { apply (bool_decide_unpack _). by vm_compute. }
  split; [|split].
  - apply (Hentry 1%nat (Some "Bold"%string)
             (with_glyf named_font ∅)); reflexivity.
  - by apply Habsent.
  - apply Hnext. by apply Habsent.
Defined.

(** Two instances whose names do not resolve share the key [None]: the
    dictionary keeps one entry, that of the later instance. *)
Lemma materialize_drops_an_unnamed_instance :
  length (Fvar.instances (fvar unnamed_font)) = 2%nat
  ∧ materialize (instancer := two_masters {["A"%string := square]}
                                  {["A"%string := pentagon]}) unnamed_font
    = [(None, with_glyf unnamed_font {["A"%string := pentagon]})]
  ∧ length (materialize (instancer := two_masters {["A"%string := square]}
                                          {["A"%string := pentagon]})
                        unnamed_font)
    ≠ length (Fvar.instances (fvar unnamed_font)).
Proof. split; [|split]; by vm_compute. Defined.

Lemma materialize_one_entry_per_distinct_name_witness :
  materialize (instancer := two_masters {["A"%string := square]}
                                {["A"%string := pentagon]}) half_named_font
  = [(None, with_glyf half_named_font {["A"%string := square]});
     (Some "Bold"%string,
      with_glyf half_named_font {["A"%string := pentagon]})].
Proof.
  destruct (materialize_one_entry_per_distinct_name
              (instancer := two_masters {["A"%string := square]}
                                {["A"%string := pentagon]})
              half_named_font) as [Hdistinct _].
  rewrite Hdistinct; [reflexivity|].
  apply (bool_decide_unpack _). by vm_compute.
Defined.


Lemma empty_instances_are_left_out_of_the_counts_witness :
  points_set ([] ++ Some empty_glyph :: [Some square])
  = points_set ([] ++ [Some square])
  ∧ contours_set ([] ++ Some empty_glyph :: [Some square])
    = contours_set ([] ++ [Some square])
  ∧ check_glyph (math := whole_degrees_math) [] "A"
      [Some empty_glyph; Some square]
    = composite_stage (math := whole_degrees_math) [] "A"
        [Some empty_glyph; Some square].
Proof.
  destruct (empty_instances_are_left_out_of_the_counts
              (math := whole_degrees_math) [] "A")
    as (Hpoints & Hcontours & Hnext).
  split; [|split].
  - apply Hpoints. by left.
  - apply Hcontours. by left.
  - apply (Hnext [Some empty_glyph; Some square] 4%nat 1).
    + apply (bool_decide_unpack _). by vm_compute.
    + apply (bool_decide_unpack _). by vm_compute.
    + apply (bool_decide_unpack _). by vm_compute.
Defined.


(** ** The list of checks of the profile *)

Lemma truthy_leave_this_one_out (checkid : string) :
  truthy (leave_this_one_out checkid) = true
  ↔ checkid ∈ CHECKS_NOT_TO_INCLUDE.
Proof.
  unfold leave_this_one_out. case_bool_decide; simpl; split; done.
Qed.

Lemma elem_of_FONTWERK_PROFILE_CHECKS (upstream : list string)
    (checkid : string) :
  checkid ∈ FONTWERK_PROFILE_CHECKS upstream
  ↔ (checkid ∈ upstream ∧ checkid ∉ CHECKS_NOT_TO_INCLUDE)
    ∨ checkid ∈ fontwerk_checks.
Proof.
  unfold FONTWERK_PROFILE_CHECKS. rewrite elem_of_app.
  rewrite list_elem_of_In, filter_In, <- list_elem_of_In.
  rewrite negb_true_iff, <- not_true_iff_false, truthy_leave_this_one_out.
  done.
Qed.

(** X1: whatever the upstream list of checks is, none of the checks that
    [leave_this_one_out] names is in [FONTWERK_PROFILE_CHECKS], every other
    upstream check is, and so are the five checks of this profile. *)
Theorem excluded_checks_are_not_expected (upstream : list string)
    (checkid : string) :
  (checkid ∈ CHECKS_NOT_TO_INCLUDE →
     checkid ∉ FONTWERK_PROFILE_CHECKS upstream)
  ∧ (checkid ∈ upstream → checkid ∉ CHECKS_NOT_TO_INCLUDE →
       checkid ∈ FONTWERK_PROFILE_CHECKS upstream)
  ∧ (checkid ∈ fontwerk_checks →
       checkid ∈ FONTWERK_PROFILE_CHECKS upstream).
Proof.
  rewrite elem_of_FONTWERK_PROFILE_CHECKS. split; [|split].
  - intros Hout [[_ Hin]|Hown]; [done|].
    unfold CHECKS_NOT_TO_INCLUDE, fontwerk_checks in *.
    rewrite !elem_of_cons, elem_of_nil in Hout, Hown.
    destruct Hout as [-> |[-> |[-> |[-> |[-> |[]]]]]];
      destruct Hown as [? |[? |[? |[? |[? |[]]]]]]; done.
  - intros Hup Hout. by left.
  - intros Hown. by right.
Qed.

(** X2: the filter given to [auto_register] and the list of expected checks
    agree on the upstream checks: a check of the upstream list is
    registered exactly when it is expected; anything that is not a check
    is always registered. *)
Theorem filter_func_agrees_with_expected_checks (upstream : list string)
    (type checkid : string) :
  (checkid ∈ upstream →
     (filter_func "check" checkid = true
      ↔ checkid ∈ FONTWERK_PROFILE_CHECKS upstream))
  ∧ (type ≠ "check"%string → filter_func type checkid = true).
Proof.
  split.
  - intros Hup. unfold filter_func. rewrite bool_decide_eq_true_2 by done.
    rewrite negb_true_iff, <- not_true_iff_false, truthy_leave_this_one_out.
    rewrite elem_of_FONTWERK_PROFILE_CHECKS. split.
    + intros Hout. by left.
    + intros [[_ Hout]|Hown] Hin; [done|].
      unfold CHECKS_NOT_TO_INCLUDE, fontwerk_checks in *.
      rewrite !elem_of_cons, elem_of_nil in Hin, Hown.
      destruct Hin as [-> |[-> |[-> |[-> |[-> |[]]]]]];
        destruct Hown as [? |[? |[? |[? |[? |[]]]]]]; done.
  - intros Htype. unfold filter_func.
    by rewrite bool_decide_eq_false_2.
Qed.

(** ** The check for Mac name entries *)

Lemma no_mac_entries_loop_spec (names : list NameRecord.t) (passed : bool) :
  no_mac_entries_loop names passed
  = ((λ rec, (FAIL, MacMessage "mac-names"
                      (remove_name_id_text (NameRecord.nameID rec))))
       <$> List.filter (λ rec, NameRecord.platformID rec =? 1) names,
     passed && forallb (λ rec, negb (NameRecord.platformID rec =? 1)) names).
Proof.
  revert passed. induction names as [|rec rest IH]; intros passed; simpl.
  - by rewrite andb_true_r.
  - destruct (NameRecord.platformID rec =? 1); simpl.
    + rewrite IH. simpl. by rewrite andb_false_r.
    + apply IH.
Qed.

(** X3: the check yields one [mac-names] failure for every record of
    platform 1, in the order of the name table, each with the name ID of its
    record, and nothing else; when there is no such record it yields the
    single PASS. *)
Theorem no_mac_entries_reports_each_mac_record (names : list NameRecord.t) :
  let mac := List.filter (λ rec, NameRecord.platformID rec =? 1) names in
  (mac ≠ [] →
     com_fontwerk_check_name_no_mac_entries names
     = (λ rec, (FAIL, MacMessage "mac-names"
                        (remove_name_id_text (NameRecord.nameID rec))))
       <$> mac)
  ∧ (mac = [] →
       com_fontwerk_check_name_no_mac_entries names
       = [(PASS, MacPlain no_mac_entries_text)]).
Proof.
  intros mac. unfold com_fontwerk_check_name_no_mac_entries.
  rewrite no_mac_entries_loop_spec. fold mac. simpl.
  assert (Hall : forallb (λ rec, negb (NameRecord.platformID rec =? 1)) names
                 = true ↔ mac = []).
  { subst mac. induction names as [|rec rest IH]; simpl; [done|].
    destruct (NameRecord.platformID rec =? 1); simpl; [done|apply IH]. }
  split.
  - intros Hmac.
    destruct (forallb _ names); [|done]. by destruct Hmac, Hall as [-> _].
  - intros Hmac. rewrite Hmac. simpl.
    by destruct Hall as [_ ->].
Qed.

(** ** The dictionary of sets *)

Section odict_keys.
Context {K V : Type} `{EqDecision K}.
Implicit Types (k : K) (v : V) (d : list (K * V)).

Lemma od_get_is_Some k d : is_Some (od_get k d) ↔ k ∈ od_keys d.
Proof.
unfold od_keys. induction d as [|[k' v'] d IH]; simpl.
- split; [by intros [? ?]|by intros ?%elem_of_nil].
- rewrite elem_of_cons. destruct (decide (k' = k)) as [-> |Hne].
  + split; [by left|by eexists].
  + rewrite IH. split; [by right|]. by intros [? |?].
Qed.

Lemma od_keys_set_present k v d :
k ∈ od_keys d → od_keys (od_set k v d) = od_keys d.
Proof.
unfold od_keys. induction d as [|[k' v'] d IH].
- by intros ?%elem_of_nil.
- cbn [od_set]. destruct (decide (k' = k)) as [-> |Hne]; [done|].
  rewrite !fmap_cons. cbn [fst].
  intros [? |Hin]%elem_of_cons; [done|]. f_equal. by apply IH.
Qed.

Lemma od_keys_set_fresh k v d :
k ∉ od_keys d → od_keys (od_set k v d) = od_keys d ++ [k].
Proof.
intros Hk. rewrite od_set_fresh.
- unfold od_keys. by rewrite fmap_app.
- destruct (od_get k d) eqn:Hget; [|done].
  exfalso. apply Hk, od_get_is_Some. by eexists.
Qed.

Lemma NoDup_od_keys_set k v d :
NoDup (od_keys d) → NoDup (od_keys (od_set k v d)).
Proof.
intros Hd. destruct (decide (k ∈ od_keys d)) as [Hin|Hout].
- by rewrite od_keys_set_present.
- rewrite od_keys_set_fresh by done. apply NoDup_app. split; [done|].
  split; [|apply NoDup_singleton].
  intros x Hx ->%list_elem_of_singleton. done.
Qed.
End odict_keys.

(** X4: after [add_dict_set(d, key, item)] the set under [key] holds the
    item together with exactly what it held before (nothing when the key
    was new), and the set under any other key is as it was. *)
Theorem add_dict_set_adds_one_item (d : list (string * gset string))
    (key item : string) :
  (∃ s, od_get key (add_dict_set d key item) = Some s
        ∧ item ∈ s
        ∧ ∀ other, other ∈ s ↔
            other = item ∨ ∃ s0, od_get key d = Some s0 ∧ other ∈ s0)
  ∧ (∀ key', key' ≠ key →
       od_get key' (add_dict_set d key item) = od_get key' d).
Proof.
  split.
  - eexists. split; [apply add_dict_set_get|].
    split; [apply elem_of_union_r; by apply elem_of_singleton|].
    intros other. rewrite elem_of_union, elem_of_singleton.
    destruct (od_get key d) as [s0|]; simpl.
    + split; [intros [?|?]; eauto|]. intros [?|(? & [= <-] & ?)]; eauto.
    + rewrite elem_of_empty. split; [intros [[]|?]; eauto|].
      intros [?|(? & [=] & _)]. by right.
  - intros key' Hne. by apply add_dict_set_other.
Qed.

(** X5: [add_dict_set] keeps the keys of the dictionary in their order: a
    key that is already there stays where it is, a new key goes to the end,
    and no key ever appears twice.  Adding the same item again changes
    nothing. *)
Theorem add_dict_set_keeps_key_order (d : list (string * gset string))
    (key item : string) :
  (key ∈ od_keys d → od_keys (add_dict_set d key item) = od_keys d)
  ∧ (key ∉ od_keys d → od_keys (add_dict_set d key item) = od_keys d ++ [key])
  ∧ (NoDup (od_keys d) → NoDup (od_keys (add_dict_set d key item)))
  ∧ add_dict_set (add_dict_set d key item) key item
    = add_dict_set d key item.
Proof.
  rewrite add_dict_set_eq. split; [|split; [|split]].
  - apply od_keys_set_present.
  - apply od_keys_set_fresh.
  - apply NoDup_od_keys_set.
  - rewrite <- add_dict_set_eq. apply add_dict_set_twice.
Qed.

(** ** More on the tolerance *)


Lemma isclose_true_iff (a b abs_tol : Q) :
  isclose a b abs_tol = true
  ↔ (a == b)%Q ∨ (Qabs (b - a) <= Qabs (rel_tol * b))%Q
    ∨ (Qabs (b - a) <= Qabs (rel_tol * a))%Q
    ∨ (Qabs (b - a) <= abs_tol)%Q.
Proof.
  unfold isclose. rewrite !orb_true_iff, Qeq_bool_iff, !Qle_bool_iff.
  tauto.
Qed.


(** X6: [close_enough] does not depend on the order of the two values. *)
Theorem close_enough_is_symmetric (value_a value_b tolerance : Q) :
  close_enough value_a value_b tolerance
  = close_enough value_b value_a tolerance.
Proof.
  unfold close_enough. apply eq_true_iff_eq. rewrite !isclose_true_iff.
  rewrite (Qabs_Qminus value_a value_b). split.
  - intros [Heq|[?|[?|?]]]; auto. left. by symmetry.
  - intros [Heq|[?|[?|?]]]; auto. left. by symmetry.
Qed.




(** ** The direction test as an angular distance *)




Section angular_distance.
Context {math : Math}.
Implicit Types (errs : list (string * gset string)) (g_name : string).
Implicit Types (previous_g g : Glyf.Glyph).

End angular_distance.

(** ** More on the fvar/STAT check *)


Lemma yielded_gen_for {A} (l : list A) (body : A → gen) (r : Result) :
  r ∈ yielded (gen_for l body) → ∃ x, x ∈ l ∧ r ∈ yielded (body x).
Proof.
  induction l as [|x l IH]; simpl; [by intros ?%elem_of_nil|].
  unfold gen_seq. destruct (finish (body x)) as [[?|]|?]; simpl.
  - intros Hr. exists x. split; [by left|done].
  - intros [Hr|Hr]%elem_of_app.
    + exists x. split; [by left|done].
    + destruct (IH Hr) as (y & Hy & Hry). exists y. split; [by right|done].
  - intros Hr. exists x. split; [by left|done].
Qed.


(** X11: the fvar/STAT check never reports a pass: whatever the font is,
    every result it yields is a failure. *)
Theorem fvar_stat_check_never_yields_pass (ttFont : TTFont) (r : Result) :
  r ∈ yielded (com_fontwerk_check_inconsistencies_between_fvar_stat ttFont) →
  r.1 = FAIL.
Proof.
  unfold com_fontwerk_check_inconsistencies_between_fvar_stat.
  destruct (STAT ttFont) as [stat_table|]; [|by intros ?%elem_of_nil].
  intros (ins & _ & Hr)%yielded_gen_for. unfold instance_body in Hr.
  destruct (Name.getDebugName _ _) as [instance_name|].
  - apply yielded_gen_for in Hr as ([axis_tag value] & _ & Hr).
    destruct (is_covered_in_stat _ _ _) as [[|]|]; simpl in Hr.
    + by apply elem_of_nil in Hr.
    + by apply list_elem_of_singleton in Hr as ->.
    + by apply elem_of_nil in Hr.
  - by apply list_elem_of_singleton in Hr as ->.
Qed.




(** ** Errors of [is_covered_in_stat] *)



(** ** More on the weight class check *)

Lemma weight_class_check_of_last_axis (ttFont : TTFont)
    (before after : list Fvar.Axis) (a : Fvar.Axis) :
  Fvar.axes (fvar ttFont) = before ++ a :: after →
  Fvar.axisTag a = "wght"%string →
  (∀ b, b ∈ after → Fvar.axisTag b ≠ "wght"%string) →
  com_fontwerk_check_weight_class_fvar ttFont
  = if negb (Os2.usWeightClass (OS2 ttFont) =? int (Fvar.defaultValue a))
    then Gen [(FAIL, Message "bad-weight-class"
                       (bad_weight_class_text (Os2.usWeightClass (OS2 ttFont))
                                              (Fvar.defaultValue a)))]
             (Done None)
    else Gen [(PASS, Plain (weight_class_matches_text
                              (Os2.usWeightClass (OS2 ttFont))))]
             (Done None).
Proof.
  intros Haxes Htag Hafter.
  unfold com_fontwerk_check_weight_class_fvar, default_axis_values.
  rewrite Haxes, <- Htag.
  rewrite (foldl_od_set_last Fvar.axisTag Fvar.defaultValue).
  - by destruct (negb _).
  - intros b Hb. rewrite Htag. by apply Hafter.
Qed.

(** X15: when several axes are tagged [wght], the default that the check
    compares is that of the last of them; the others play no part. *)
Theorem weight_class_check_uses_last_wght_axis (ttFont : TTFont)
    (before after : list Fvar.Axis) (a : Fvar.Axis) :
  Fvar.axes (fvar ttFont) = before ++ a :: after →
  Fvar.axisTag a = "wght"%string →
  (∀ b, b ∈ after → Fvar.axisTag b ≠ "wght"%string) →
  let os2_value := Os2.usWeightClass (OS2 ttFont) in
  (int (Fvar.defaultValue a) = os2_value →
     com_fontwerk_check_weight_class_fvar ttFont
     = Gen [(PASS, Plain (weight_class_matches_text os2_value))] (Done None))
  ∧ (int (Fvar.defaultValue a) ≠ os2_value →
       com_fontwerk_check_weight_class_fvar ttFont
       = Gen [(FAIL, Message "bad-weight-class"
                       (bad_weight_class_text os2_value
                                              (Fvar.defaultValue a)))]
             (Done None)).
Proof.
  intros Haxes Htag Hafter os2_value.
  rewrite (weight_class_check_of_last_axis _ _ _ _ Haxes Htag Hafter).
  fold os2_value. split.
  - intros ->. by rewrite Z.eqb_refl.
  - intros Hne. destruct (Z.eqb_spec os2_value (int (Fvar.defaultValue a)));
      [congruence|done].
Qed.

Lemma int_of_nonnegative (x : Q) (z : Z) :
  (0 <= x)%Q → (int x = z ↔ (inject_Z z <= x)%Q ∧ (x < inject_Z z + 1)%Q).
Proof.
  destruct x as [n d]. unfold int, Qle, Qlt, Qplus, inject_Z.
  cbn [Qnum Qden]. rewrite ?Pos.mul_1_r, ?Z.mul_1_r. intros Hn.
  rewrite Z.quot_div_nonneg by lia.
  pose proof (Z.div_mod n (Z.pos d)) as Hdm.
  pose proof (Z.mod_pos_bound n (Z.pos d)) as Hmod.
  split.
  - intros <-. nia.
  - intros [Hlo Hhi]. symmetry.
    apply Z.div_unique with (r := n - Z.pos d * z); nia.
Qed.

(** X16: the comparison drops the fraction of the default.  A default that
    is not negative passes exactly when it lies from [usWeightClass] up to,
    but not including, [usWeightClass + 1], so 400.9 passes against 400 and
    399.9 does not; and whenever the check passes the two values are less
    than 1 apart. *)
Theorem weight_class_check_drops_the_fraction (ttFont : TTFont)
    (before after : list Fvar.Axis) (a : Fvar.Axis) :
  Fvar.axes (fvar ttFont) = before ++ a :: after →
  Fvar.axisTag a = "wght"%string →
  (∀ b, b ∈ after → Fvar.axisTag b ≠ "wght"%string) →
  let os2_value := Os2.usWeightClass (OS2 ttFont) in
  let fvar_value := Fvar.defaultValue a in
  let passes :=
    com_fontwerk_check_weight_class_fvar ttFont
    = Gen [(PASS, Plain (weight_class_matches_text os2_value))] (Done None) in
  ((0 <= fvar_value)%Q →
     (passes ↔ (inject_Z os2_value <= fvar_value)%Q
               ∧ (fvar_value < inject_Z os2_value + 1)%Q))
  ∧ (passes → (Qabs (fvar_value - inject_Z os2_value) < 1)%Q).
Proof.
  intros Haxes Htag Hafter os2_value fvar_value passes.
  assert (Hpass : passes ↔ int fvar_value = os2_value).
  { subst passes.
    rewrite (weight_class_check_of_last_axis _ _ _ _ Haxes Htag Hafter).
    fold os2_value fvar_value.
    destruct (Z.eqb_spec os2_value (int fvar_value)); simpl; split;
      done || congruence. }
  split.
  - intros Hpos. rewrite Hpass. by apply int_of_nonnegative.
  - intros <-%Hpass. apply int_within_one.
Qed.

(** ** Fewer than two instances *)

Lemma size_list_to_set_short `{Countable A} (l : list A) :
  (length l ≤ 1)%nat → (size (list_to_set l : gset A) ≤ 1)%nat.
Proof.
  destruct l as [|x [|y l]]; intros Hlen; [| |simpl in Hlen; lia].
  - rewrite list_to_set_nil, size_empty. lia.
  - apply (size_list_to_set_constant [x] x).
    by intros z ->%list_elem_of_singleton.
Qed.


Section few_instances.
Context {math : Math}.
Implicit Types (errs : list (string * gset string)) (g_name : string).
Implicit Types (glyphs : list (option Glyf.Glyph)).



End few_instances.



(** ** What the interpolation check reports *)

Lemma elem_of_od_set {K V} `{EqDecision K} (k k' : K) (v v' : V)
    (d : list (K * V)) :
  (k', v') ∈ od_set k v d → (k', v') ∈ d ∨ (k' = k ∧ v' = v).
Proof.
  induction d as [|[k0 v0] d IH]; simpl.
  - intros [= -> ->]%list_elem_of_singleton. by right.
  - destruct (decide (k0 = k)) as [-> |Hne].
    + intros [[= -> ->]|Hin]%elem_of_cons; [by right|]. left. by right.
    + intros [[= -> ->]|Hin]%elem_of_cons; [left; by left|].
      destruct (IH Hin) as [?|?]; [left; by right|by right].
Qed.

Lemma errs_in_order_add (order : list string)
    (errs : list (string * gset string)) (title g_name : string) :
  errs_in_order order errs → title ∈ titles → g_name ∈ order →
  errs_in_order order (add_dict_set errs title g_name).
Proof.
  intros [Hnodup Hall] Htitle Hname. rewrite add_dict_set_eq. split.
  - by apply NoDup_od_keys_set.
  - intros t s [Hin|[-> ->]]%elem_of_od_set; [by apply Hall|].
    split; [done|]. split.
    + intros Hempty. assert (g_name ∈ (∅ : gset string)) as Hg; [|done].
      rewrite <- Hempty. apply elem_of_union_r. by apply elem_of_singleton.
    + intros g [Hg|Hg]%elem_of_union.
      * destruct (od_get title errs) as [s0|] eqn:Hget; [|done].
        simpl in Hg. apply (Hall title s0); [|done].
        clear -Hget. induction errs as [|[k v] errs IH]; [done|].
        simpl in Hget. destruct (decide (k = title)) as [-> |?].
        -- injection Hget as ->. by left.
        -- right. by apply IH.
      * by apply elem_of_singleton in Hg as ->.
Qed.

Lemma yielded_report_entries (errs : list (string * gset string)) :
  gen_for errs (λ '(title, g_names),
    gen_yield (FAIL, Message "interpolation-issues"
                       (interpolation_text title g_names))
              (gen_return None))
  = Gen (issue <$> errs) (Done None).
Proof.
  induction errs as [|[title g_names] errs IH]; [done|].
  simpl. rewrite IH. done.
Qed.

Section report_shape.
Context {math : Math}.
Implicit Types (errs : list (string * gset string)) (g_name : string).

Lemma glyph_order_loop_in_order
  (font_instances : list (option string * TTFont)) (order todo : list string)
  errs errs' :
(∀ g_name, g_name ∈ todo → g_name ∈ order) →
errs_in_order order errs →
glyph_order_loop font_instances errs todo = Done errs' →
errs_in_order order errs'.
Proof.
revert errs. induction todo as [|g_name todo IH]; intros errs Hsub Hinv.
- by intros [= <-].
- simpl.
  destruct (check_glyph errs g_name (gather font_instances g_name))
    as [errs1|] eqn:Hcheck; simpl; [|done].
  apply IH; [intros g Hg; apply Hsub; by right|].
  apply check_glyph_outcomes in Hcheck as [-> |(t & Ht & ->)]; [done|].
  apply errs_in_order_add; [done..|]. apply Hsub. by left.
Qed.

(** X19: a run of the interpolation check either raises, and then it has
  yielded nothing, whatever was found for the glyphs before the one that
  raised; or it ends normally with the single pass or with failures only,
  at most five of them: one for each title that has glyphs, no title
  twice, each with glyph names of the glyph order. *)
Theorem interpolation_check_yields_pass_or_titles
  (font_instances : list (option string * TTFont)) (order : list string) :
let run := check_instances font_instances order in
(∀ e, finish run = Raised e → yielded run = [])
∧ (finish run = Done None ∨ ∃ e, finish run = Raised e)
∧ (finish run = Done None →
     yielded run = [(PASS, Plain no_interpolation_issues_text)]
     ∨ ∃ errs, errs ≠ [] ∧ errs_in_order order errs
               ∧ yielded run = issue <$> errs)
∧ (length (yielded run) ≤ 5)%nat.
Proof.
intros run. subst run. unfold check_instances.
destruct (glyph_order_loop font_instances [] order) as [errs|e] eqn:Hloop.
2:{ simpl. split; [done|]. split; [right; by eexists|]. split; [done|lia]. }
assert (Hinv : errs_in_order order errs).
{ apply (glyph_order_loop_in_order font_instances order order [] errs);
    [done| |exact Hloop].
  split; [apply NoDup_nil_2|]. by intros ? ? ?%elem_of_nil. }
destruct errs as [|entry errs].
{ simpl. split; [done|]. split; [by left|]. split; [by left|lia]. }
unfold report. rewrite yielded_report_entries. simpl.
split; [done|]. split; [by left|]. split.
- intros _. right. by exists (entry :: errs).
- destruct Hinv as [Hnodup Hall].
  assert (Hsub : od_keys (entry :: errs) ⊆+ titles).
  { apply NoDup_submseteq; [done|].
    intros t ((t' & s) & -> & Hin)%list_elem_of_fmap. by apply (Hall t' s). }
  apply submseteq_length in Hsub. unfold od_keys in Hsub.
  rewrite length_fmap in Hsub. rewrite length_fmap. simpl in *. lia.
Qed.
End report_shape.

(** ** Which glyphs are entered under the count titles *)

Section count_titles.
Context {math : Math}.
Implicit Types (errs : list (string * gset string)) (g_name : string).
Implicit Types (glyphs : list (option Glyf.Glyph)).

Lemma elem_of_add_dict_set errs title g_name other :
other ∈ default ∅ (od_get title (add_dict_set errs title g_name))
↔ other ∈ default ∅ (od_get title errs) ∨ other = g_name.
Proof.
rewrite add_dict_set_get. simpl.
by rewrite elem_of_union, elem_of_singleton.
Qed.

Lemma check_glyph_count_titles errs g_name glyphs errs' other :
check_glyph errs g_name glyphs = Done errs' →
(other ∈ default ∅ (od_get points_title errs')
 ↔ other ∈ default ∅ (od_get points_title errs)
   ∨ (other = g_name ∧ (1 < size (points_set glyphs))%nat))
∧ (other ∈ default ∅ (od_get contours_title errs')
   ↔ other ∈ default ∅ (od_get contours_title errs)
     ∨ (other = g_name ∧ size (points_set glyphs) = 1%nat
        ∧ (1 < size (contours_set glyphs))%nat)).
Proof.
unfold check_glyph. case_bool_decide as Hzero.
{ intros [= <-]. split; split; auto; intros [?|(_ & ?)]; auto; lia. }
case_bool_decide as Hmany.
{ intros [= <-]. split.
  - rewrite elem_of_add_dict_set. split; [intros [?|?]|intros [?|[? _]]];
      auto.
  - rewrite add_dict_set_other by done.
    split; auto; intros [?|(_ & ? & _)]; auto; lia. }
unfold contours_stage. case_bool_decide as Hcontours.
{ intros [= <-]. split.
  - rewrite add_dict_set_other by done.
    split; auto; intros [?|(_ & ?)]; auto; lia.
  - rewrite elem_of_add_dict_set. split; [intros [?|?]|intros [?|[? _]]];
      auto.
    right. split; [done|]. split; [lia|done]. }
intros [-> ->]%composite_stage_keeps_counts.
split; split; auto; intros [?|(_ & ?)]; auto; lia.
Qed.

Lemma glyph_order_loop_count_titles
  (font_instances : list (option string * TTFont)) (order : list string)
  errs errs' other :
glyph_order_loop font_instances errs order = Done errs' →
(other ∈ default ∅ (od_get points_title errs')
 ↔ other ∈ default ∅ (od_get points_title errs)
   ∨ (other ∈ order
      ∧ (1 < size (points_set (gather font_instances other)))%nat))
∧ (other ∈ default ∅ (od_get contours_title errs')
   ↔ other ∈ default ∅ (od_get contours_title errs)
     ∨ (other ∈ order
        ∧ size (points_set (gather font_instances other)) = 1%nat
        ∧ (1 < size (contours_set (gather font_instances other)))%nat)).
Proof.
revert errs. induction order as [|g_name order IH]; intros errs.
- intros [= <-]. split; split; auto; intros [?|[?%elem_of_nil _]]; done.
- simpl.
  destruct (check_glyph errs g_name (gather font_instances g_name))
    as [errs1|] eqn:Hcheck; simpl; [|done].
  intros [Hp Hc]%IH.
  destruct (check_glyph_count_titles _ _ _ _ other Hcheck) as [Hp1 Hc1].
  rewrite Hp, Hp1, Hc, Hc1, elem_of_cons. split.
  + split.
    * intros [[?|[-> ?]]|[? ?]]; auto.
    * intros [?|[[-> |?] ?]]; auto.
  + split.
    * intros [[?|[-> ?]]|[? ?]]; auto.
    * intros [?|[[-> |?] ?]]; auto.
Qed.

(** X20: when the loop over the glyph order ends normally, the glyphs
  entered under the title for the number of points are exactly the glyphs
  of the glyph order that have two different point counts among the
  instances that have points for them, and those entered under the title
  for the number of contours are exactly those with one point count and
  two different contour counts. *)
Theorem count_titles_list_the_glyphs_that_differ
  (font_instances : list (option string * TTFont)) (order : list string)
  errs g_name :
glyph_order_loop font_instances [] order = Done errs →
(g_name ∈ default ∅ (od_get points_title errs)
 ↔ g_name ∈ order
   ∧ (1 < size (points_set (gather font_instances g_name)))%nat)
∧ (g_name ∈ default ∅ (od_get contours_title errs)
   ↔ g_name ∈ order
     ∧ size (points_set (gather font_instances g_name)) = 1%nat
     ∧ (1 < size (contours_set (gather font_instances g_name)))%nat).
Proof.
intros [Hp Hc]%(glyph_order_loop_count_titles _ _ _ _ g_name).
rewrite Hp, Hc. simpl. split; split; auto; by intros [?%elem_of_empty|?].
Qed.
End count_titles.

(** ** Indexing the points *)

Lemma py_getitem_in_range {A} (l : list A) (i : Z) :
  - Z.of_nat (length l) ≤ i < Z.of_nat (length l) →
  ∃ x, py_getitem l i = Done x
       ∧ l !! Z.to_nat (if 0 <=? i then i else Z.of_nat (length l) + i)
         = Some x.
Proof.
  intros Hi. unfold py_getitem.
  set (j := if 0 <=? i then i else Z.of_nat (length l) + i).
  assert (0 ≤ j < Z.of_nat (length l)) as Hj.
  { subst j. destruct (Z.leb_spec 0 i); lia. }
  assert ((0 <=? j) && (j <? Z.of_nat (length l)) = true) as ->.
  { apply andb_true_iff. split; [apply Z.leb_le|apply Z.ltb_lt]; lia. }
  destruct (lookup_lt_is_Some_2 l (Z.to_nat j)) as [x Hx]; [lia|].
  rewrite Hx. by exists x.
Qed.

Lemma py_getitem_out_of_range {A} (l : list A) (i : Z) :
  i < - Z.of_nat (length l) ∨ Z.of_nat (length l) ≤ i →
  py_getitem l i = Raised IndexError.
Proof.
  intros Hi. unfold py_getitem.
  set (j := if 0 <=? i then i else Z.of_nat (length l) + i).
  assert (j < 0 ∨ Z.of_nat (length l) ≤ j) as Hj.
  { subst j. destruct (Z.leb_spec 0 i); lia. }
  assert ((0 <=? j) && (j <? Z.of_nat (length l)) = false) as ->; [|done].
  apply andb_false_iff. destruct Hj; [left; apply Z.leb_gt|right; apply Z.ltb_ge];
    lia.
Qed.

Section end_points.
Context {math : Math}.
Implicit Types (errs : list (string * gset string)) (g_name : string).

(** X21: the bearing at a contour end [n] needs the points [n] and
  [n - 1].  For every end index from 0 up to the number of points it is
  defined, also for 0, where [n - 1] is -1 and the segment is taken from
  the last point of the glyph to its first; an index from the number of
  points on raises [IndexError]. *)
Theorem end_bearing_wraps_at_zero (c : list Glyf.Point) (n : Z) :
(0 ≤ n < Z.of_nat (length c) → ∃ deg, end_bearing c n = Done deg)
∧ (Z.of_nat (length c) ≤ n → end_bearing c n = Raised IndexError)
∧ (∀ first rest final,
     c = first :: rest → last c = Some final →
     end_bearing c 0 = Done (get_degree_of_line final first)).
Proof.
unfold end_bearing. split; [|split].
- intros Hn.
  destruct (py_getitem_in_range c n) as (e & -> & _); [lia|].
  destruct (py_getitem_in_range c (n - 1)) as (b & -> & _); [lia|].
  by eexists.
- intros Hn. by rewrite (py_getitem_out_of_range c n) by lia.
- intros first rest final -> Hlast.
  destruct (py_getitem_in_range (first :: rest) 0) as (e & -> & He);
    [simpl; lia|].
  destruct (py_getitem_in_range (first :: rest) (0 - 1)) as (b & -> & Hb);
    [simpl; lia|].
  simpl in He. injection He as <-.
  rewrite last_lookup in Hlast.
  replace (Z.to_nat (if 0 <=? 0 - 1
                     then 0 - 1
                     else Z.of_nat (length (first :: rest)) + (0 - 1)))
    with (pred (length (first :: rest))) in Hb by (simpl; lia).
  rewrite Hlast in Hb. by injection Hb as <-.
Qed.

(** X22: an instance in which the glyph has no points is not treated alike
  before and after an instance that has them.  Such an instance in front
  of one with points and a contour makes the comparison of directions
  read a point that is not there, and the check raises [IndexError];
  after it, the empty instance has no contour ends to go through and
  nothing happens. *)
Theorem empty_instance_first_raises_IndexError errs g_name
  (empty g : Glyf.Glyph) (c : list Glyf.Point) (n : Z) (rest : list Z) :
Glyf.coordinates empty = Some [] →
Glyf.numberOfContours empty = Some 0 →
Glyf.components empty = None →
Glyf.endPtsOfContours empty = [] →
Glyf.coordinates g = Some c →
Glyf.components g = None →
Glyf.isComposite g = Glyf.isComposite empty →
Glyf.endPtsOfContours g = n :: rest →
0 ≤ n < Z.of_nat (length c) →
check_glyph errs g_name [Some empty; Some g] = Raised IndexError
∧ check_glyph errs g_name [Some g; Some empty] = Done errs.
Proof.
intros Hec Hen Hep Hee Hgc Hgp Hcomp Hge Hn.
assert (Hc : c ≠ []) by (intros ->; simpl in Hn; lia).
assert (Hcount : point_count (Some g) = Some (length c)).
{ unfold point_count. simpl. rewrite Hgc. by destruct c. }
assert (Hnone : point_count (Some empty) = None).
{ unfold point_count. simpl. by rewrite Hec. }
assert (Hcontour : contour_count (Some empty) = None).
{ unfold contour_count. simpl. by rewrite Hen. }
assert (Hparts : ∀ x, x ∈ [Some empty; Some g] → component_list x = None).
{ intros x Hx. rewrite !elem_of_cons, elem_of_nil in Hx.
  destruct Hx as [-> |[-> |[]]]; unfold component_list; simpl;
    by rewrite ?Hep, ?Hgp. }
assert (Hstage : ∀ glyphs,
          (glyphs = [Some empty; Some g] ∨ glyphs = [Some g; Some empty]) →
          check_glyph errs g_name glyphs
          = direction_stage errs g_name glyphs).
{ intros glyphs Hglyphs.
  rewrite check_glyph_same_points.
  2:{ unfold points_set. rewrite (list_to_set_constant _ (length c)).
      - apply size_singleton.
      - destruct Hglyphs as [-> | ->]; simpl; by rewrite Hcount, Hnone.
      - intros y (x & Hx & Hy)%list_elem_of_omap.
        destruct Hglyphs as [-> | ->];
          rewrite !elem_of_cons, elem_of_nil in Hx;
          destruct Hx as [-> |[-> |[]]]; congruence. }
  unfold contours_stage. rewrite bool_decide_eq_false_2.
  2:{ apply Nat.le_ngt. unfold contours_set.
      destruct Hglyphs as [-> | ->]; simpl; rewrite Hcontour;
        apply size_list_to_set_short; destruct (contour_count (Some g));
        simpl; lia. }
  unfold composite_stage.
  assert (composite_set glyphs
          = Done ({[Glyf.isComposite empty]} : gset bool)) as ->.
  { destruct Hglyphs as [-> | ->]; simpl; rewrite ?Hcomp;
      by rewrite (right_id_L ∅ (∪)), (idemp_L (∪)). }
  cbn [mbind outcome_bind]. rewrite size_singleton.
  rewrite bool_decide_eq_false_2 by lia.
  unfold components_stage. rewrite bool_decide_eq_false_2; [done|].
  apply Nat.le_ngt. unfold components_set.
  assert (omap component_list glyphs = []) as ->.
  { destruct Hglyphs as [-> | ->]; simpl;
      rewrite !Hparts; try done; rewrite !elem_of_cons; auto. }
  rewrite list_to_set_nil, size_empty. lia. }
split.
- rewrite Hstage by auto. simpl. rewrite Hge. simpl.
  unfold coordinates_of. simpl. rewrite Hgc, Hec. simpl.
  destruct (py_getitem_in_range c n) as (e & -> & _); [lia|].
  destruct (py_getitem_in_range c (n - 1)) as (b & -> & _); [lia|].
  simpl. by rewrite (py_getitem_out_of_range [] n) by (simpl; lia).
- rewrite Hstage by auto. simpl. by rewrite Hee.
Qed.
End end_points.

(** ** A glyph name that comes again *)

Lemma od_set_same {K V} `{EqDecision K} (k : K) (v : V) (d : list (K * V)) :
  od_get k d = Some v → od_set k v d = d.
Proof.
  induction d as [|[k0 v0] d IH]; simpl; [done|].
  destruct (decide (k0 = k)) as [-> |Hne].
  - by intros [= ->].
  - intros Hget. by rewrite IH.
Qed.

Lemma add_dict_set_present (d : list (string * gset string))
    (title g_name : string) :
  g_name ∈ default ∅ (od_get title d) → add_dict_set d title g_name = d.
Proof.
  intros Hin. rewrite add_dict_set_eq.
  destruct (od_get title d) as [s|] eqn:Hget; simpl in Hin; [|done].
  apply od_set_same. rewrite Hget. simpl. f_equal.
  symmetry. rewrite (comm_L (∪)).
  apply subseteq_union_1_L. by apply singleton_subseteq_l.
Qed.

Section verdicts.
Context {math : Math}.
Implicit Types (errs : list (string * gset string)) (g_name : string).
Implicit Types (glyphs : list (option Glyf.Glyph)).

Lemma contours_loop_uniform g_name g previous_g ns :
(∃ e, ∀ errs, contours_loop errs g_name g previous_g ns = Raised e)
∨ (∀ errs, contours_loop errs g_name g previous_g ns = Done errs)
∨ (∀ errs, contours_loop errs g_name g previous_g ns
           = Done (add_dict_set errs direction_title g_name)).
Proof.
induction ns as [|n ns IH]; [right; by left|]. simpl.
destruct (coordinates_of g) as [c|e]; simpl; [|left; by exists e].
destruct (py_getitem c n) as [p1|e]; simpl; [|left; by exists e].
destruct (py_getitem c (n - 1)) as [p2|e]; simpl; [|left; by exists e].
destruct (coordinates_of previous_g) as [pc|e]; simpl; [|left; by exists e].
destruct (py_getitem pc n) as [p3|e]; simpl; [|left; by exists e].
destruct (py_getitem pc (n - 1)) as [p4|e]; simpl; [|left; by exists e].
destruct (close_enough _ _ _); [exact IH|].
destruct (close_enough _ _ _); simpl; [exact IH|].
right. by right.
Qed.

Lemma instances_loop_uniform g_name previous_g glyphs :
(∃ e, ∀ errs, instances_loop errs g_name previous_g glyphs = Raised e)
∨ (∀ errs, instances_loop errs g_name previous_g glyphs = Done errs)
∨ (∀ errs, instances_loop errs g_name previous_g glyphs
           = Done (add_dict_set errs direction_title g_name)).
Proof.
revert previous_g. induction glyphs as [|g glyphs IH]; intros previous_g.
{ right. by left. }
simpl. destruct (endPtsOfContours_of g) as [ns|e]; simpl;
  [|left; by exists e].
pose proof (contours_loop_uniform g_name g previous_g ns) as Hfirst.
destruct Hfirst as [[e He]|[Hid|Hadd]].
- left. exists e. intros errs. by rewrite He.
- destruct (IH g) as [[e He]|[Hid'|Hadd']].
  + left. exists e. intros errs. rewrite Hid. simpl. apply He.
  + right. left. intros errs. rewrite Hid. simpl. apply Hid'.
  + right. right. intros errs. rewrite Hid. simpl. apply Hadd'.
- destruct (IH g) as [[e He]|[Hid'|Hadd']].
  + left. exists e. intros errs. rewrite Hadd. simpl. apply He.
  + right. right. intros errs. rewrite Hadd. simpl. apply Hid'.
  + right. right. intros errs. rewrite Hadd. simpl.
    by rewrite Hadd', add_dict_set_twice.
Qed.

Lemma check_glyph_uniform g_name glyphs :
uniform (λ errs, check_glyph errs g_name glyphs) g_name.
Proof.
unfold uniform, check_glyph.
case_bool_decide; [right; by left|].
case_bool_decide; [right; right; by exists points_title|].
unfold contours_stage.
case_bool_decide; [right; right; by exists contours_title|].
unfold composite_stage.
destruct (composite_set glyphs) as [cs|e]; simpl; [|left; by exists e].
case_bool_decide; [right; right; by exists composite_title|].
unfold components_stage.
case_bool_decide; [right; right; by exists components_title|].
unfold direction_stage. destruct glyphs as [|g0 rest]; [right; by left|].
destruct (instances_loop_uniform g_name g0 rest) as [?|[?|?]]; auto.
right. right. by exists direction_title.
Qed.

(** X23: going through a glyph a second time changes nothing.  If the
  tests on a glyph ended normally once, then from any dictionary that
  holds at least what that run left, the same tests on the same outlines
  end with the dictionary as it is; so a glyph name that is listed twice
  in a row in the glyph order counts as if listed once. *)
Theorem repeated_glyph_changes_nothing errs errs1 errs2 g_name glyphs :
check_glyph errs g_name glyphs = Done errs1 →
(∀ title other, other ∈ default ∅ (od_get title errs1) →
                other ∈ default ∅ (od_get title errs2)) →
check_glyph errs2 g_name glyphs = Done errs2
∧ ∀ font_instances rest,
    glyphs = gather font_instances g_name →
    glyph_order_loop font_instances errs (g_name :: g_name :: rest)
    = glyph_order_loop font_instances errs (g_name :: rest).
Proof.
intros Hfirst Hmore.
assert (Hagain : ∀ errs', (∀ title other,
            other ∈ default ∅ (od_get title errs1) →
            other ∈ default ∅ (od_get title errs')) →
          check_glyph errs' g_name glyphs = Done errs').
{ intros errs' Hsub.
  destruct (check_glyph_uniform g_name glyphs)
    as [[e He]|[Hid|[title Hadd]]].
  - by rewrite He in Hfirst.
  - apply Hid.
  - rewrite Hadd. f_equal. apply add_dict_set_present, Hsub.
    rewrite Hadd in Hfirst. injection Hfirst as <-.
    rewrite add_dict_set_get. simpl.
    apply elem_of_union_r. by apply elem_of_singleton. }
split; [by apply Hagain|].
intros font_instances rest ->. simpl. rewrite Hfirst. simpl.
by rewrite Hagain.
Qed.
End verdicts.

(** ** The direction test and the order of the instances *)

Section neighbours.
Context {math : Math}.
Implicit Types (errs : list (string * gset string)) (g_name : string).


End neighbours.

(** ** The further properties at concrete inputs *)

Lemma excluded_checks_are_not_expected_witness :
  (fstype_check ∉ FONTWERK_PROFILE_CHECKS upstream_example)
  ∧ trailing_spaces_check ∈ FONTWERK_PROFILE_CHECKS upstream_example
  ∧ vendor_id_check ∈ FONTWERK_PROFILE_CHECKS upstream_example.
Proof.
  destruct (excluded_checks_are_not_expected upstream_example fstype_check)
    as (Hout & _ & _).
  destruct (excluded_checks_are_not_expected upstream_example
              trailing_spaces_check) as (_ & Hkept & _).
  destruct (excluded_checks_are_not_expected upstream_example
              vendor_id_check) as (_ & _ & Hown).
  split; [|split].
  - apply Hout. apply (bool_decide_unpack _). by vm_compute.
  - apply Hkept; apply (bool_decide_unpack _); by vm_compute.
  - apply Hown. apply (bool_decide_unpack _). by vm_compute.
Defined.

Lemma filter_func_agrees_with_expected_checks_witness :
  (filter_func "check" fstype_check = true
   ↔ fstype_check ∈ FONTWERK_PROFILE_CHECKS upstream_example)
  ∧ filter_func "check" fstype_check = false
  ∧ filter_func "condition" fstype_check = true.
Proof.
  destruct (filter_func_agrees_with_expected_checks upstream_example
              "condition" fstype_check) as [Hcheck Hother].
  split; [|split].
  - apply Hcheck. apply (bool_decide_unpack _). by vm_compute.
  - reflexivity.
  - apply Hother. done.
Defined.

Lemma no_mac_entries_reports_each_mac_record_witness :
  com_fontwerk_check_name_no_mac_entries
    [windows_record 1; mac_record 1; windows_record 2; mac_record 2]
  = [(FAIL, MacMessage "mac-names" (remove_name_id_text 1));
     (FAIL, MacMessage "mac-names" (remove_name_id_text 2))]
  ∧ com_fontwerk_check_name_no_mac_entries
      [windows_record 1; windows_record 2]
    = [(PASS, MacPlain no_mac_entries_text)].
Proof.
  split.
  - apply (no_mac_entries_reports_each_mac_record
             [windows_record 1; mac_record 1; windows_record 2;
              mac_record 2]).
    done.
  - apply (no_mac_entries_reports_each_mac_record
             [windows_record 1; windows_record 2]).
    reflexivity.
Defined.

Lemma add_dict_set_adds_one_item_witness :
  (∃ s, od_get points_title
          (add_dict_set one_title points_title "B")
        = Some s
        ∧ "B"%string ∈ s
        ∧ ∀ other, other ∈ s ↔
            other = "B"%string
            ∨ ∃ s0, od_get points_title one_title
                    = Some s0 ∧ other ∈ s0)
  ∧ od_get contours_title
      (add_dict_set one_title points_title "B")
    = None.
Proof.
  destruct (add_dict_set_adds_one_item one_title
              points_title "B") as [Hkey Hother].
  split; [exact Hkey|].
  rewrite (Hother contours_title); [reflexivity|done].
Defined.

Lemma add_dict_set_keeps_key_order_witness :
  od_keys (add_dict_set two_titles
                        points_title "B")
  = [points_title; direction_title]
  ∧ od_keys (add_dict_set one_title
                          direction_title "B")
    = [points_title; direction_title]
  ∧ NoDup (od_keys (add_dict_set one_title
                                 direction_title "B")).
Proof.
  destruct (add_dict_set_keeps_key_order
              two_titles points_title "B")
    as (Hthere & _ & _ & _).
  destruct (add_dict_set_keeps_key_order one_title
              direction_title "B") as (_ & Hnew & Hnodup & _).
  split; [|split].
  - apply Hthere. apply (bool_decide_unpack _). by vm_compute.
  - apply Hnew. apply (bool_decide_unpack _). by vm_compute.
  - apply Hnodup. apply (bool_decide_unpack _). by vm_compute.
Defined.





Lemma fvar_stat_check_never_yields_pass_witness :
  let r := (FAIL, Message "missing-name-id" (missing_name_id_text 256)) in
  r ∈ yielded
        (com_fontwerk_check_inconsistencies_between_fvar_stat half_named_font)
  ∧ r.1 = FAIL.
Proof.
  intros r.
  assert (Hr : r ∈ yielded
                 (com_fontwerk_check_inconsistencies_between_fvar_stat
                    half_named_font)).
  { change (r ∈ [r]). by left. }
  split; [exact Hr|].
  exact (fvar_stat_check_never_yields_pass half_named_font r Hr).
Defined.




Lemma weight_class_check_uses_last_wght_axis_witness :
  com_fontwerk_check_weight_class_fvar (two_weights_font 400)
  = Gen [(PASS, Plain (weight_class_matches_text 400))] (Done None)
  ∧ com_fontwerk_check_weight_class_fvar (two_weights_font 300)
    = Gen [(FAIL, Message "bad-weight-class"
                    (bad_weight_class_text 300 400%Q))] (Done None).
Proof.
  assert (Hafter : ∀ b, b ∈ [wdth_axis] → Fvar.axisTag b ≠ "wght"%string).
  { intros b Hb. apply list_elem_of_singleton in Hb. by subst. }
  split.
  - destruct (weight_class_check_uses_last_wght_axis (two_weights_font 400)
                [wght_axis 300%Q] [wdth_axis] (wght_axis 400%Q))
      as [Hpass _]; [reflexivity|reflexivity|exact Hafter|].
    apply Hpass. reflexivity.
  - destruct (weight_class_check_uses_last_wght_axis (two_weights_font 300)
                [wght_axis 300%Q] [wdth_axis] (wght_axis 400%Q))
      as [_ Hfail]; [reflexivity|reflexivity|exact Hafter|].
    apply Hfail. by vm_compute.
Defined.

Lemma weight_class_check_drops_the_fraction_witness :
  com_fontwerk_check_weight_class_fvar fraction_font
  = Gen [(PASS, Plain (weight_class_matches_text 400))] (Done None)
  ∧ (Qabs ((801 # 2) - inject_Z 400) < 1)%Q.
Proof.
  destruct (weight_class_check_drops_the_fraction fraction_font []
              [] (wght_axis (801 # 2))) as [Hiff Hclose].
  { reflexivity. }
  { reflexivity. }
  { intros b Hb. by apply elem_of_nil in Hb. }
  assert (Hpasses :
    com_fontwerk_check_weight_class_fvar fraction_font
    = Gen [(PASS, Plain (weight_class_matches_text 400))] (Done None)).
  { apply Hiff; [by vm_compute|]. split; by vm_compute. }
  split; [exact Hpasses|]. apply Hclose. exact Hpasses.
Defined.



Lemma interpolation_check_yields_pass_or_titles_witness :
  let run := check_instances (math := whole_degrees_math)
               (regular_and_bold square pentagon) ["A"%string] in
  (yielded run = [(PASS, Plain no_interpolation_issues_text)]
   ∨ ∃ errs, errs ≠ [] ∧ errs_in_order ["A"%string] errs
             ∧ yielded run = issue <$> errs)
  ∧ (length (yielded run) ≤ 5)%nat.
Proof.
  intros run.
  destruct (interpolation_check_yields_pass_or_titles
              (math := whole_degrees_math)
              (regular_and_bold square pentagon) ["A"%string])
    as (_ & _ & Hdone & Hlength).
  split; [|exact Hlength]. apply Hdone. reflexivity.
Defined.

Lemma count_titles_list_the_glyphs_that_differ_witness :
  "A"%string
  ∈ default (∅ : gset string)
      (od_get points_title (add_dict_set [] points_title "A")).
Proof.
  destruct (count_titles_list_the_glyphs_that_differ
              (math := whole_degrees_math)
              (regular_and_bold square pentagon) ["A"%string]
              (add_dict_set [] points_title "A") "A") as [Hpoints _].
  { reflexivity. }
  apply Hpoints. split; [by left|]. vm_compute. lia.
Defined.

Lemma end_bearing_wraps_at_zero_witness :
  end_bearing (math := compass_math)
    [(0, 0); (100, 0); (100, 100); (0, 100)] 0
  = Done (get_degree_of_line (math := compass_math) (0, 100) (0, 0))
  ∧ end_bearing (math := compass_math)
      [(0, 0); (100, 0); (100, 100); (0, 100)] 4
    = Raised IndexError
  ∧ ∃ deg, end_bearing (math := compass_math)
             [(0, 0); (100, 0); (100, 100); (0, 100)] 3 = Done deg.
Proof.
  destruct (end_bearing_wraps_at_zero (math := compass_math)
              [(0, 0); (100, 0); (100, 100); (0, 100)] 4)
    as (_ & Hbeyond & Hwrap).
  destruct (end_bearing_wraps_at_zero (math := compass_math)
              [(0, 0); (100, 0); (100, 100); (0, 100)] 3)
    as (Hinside & _ & _).
  split; [|split].
  - apply (Hwrap (0, 0) [(100, 0); (100, 100); (0, 100)] (0, 100));
      reflexivity.
  - apply Hbeyond. simpl. lia.
  - apply Hinside. simpl. lia.
Defined.

Lemma empty_instance_first_raises_IndexError_witness :
  check_glyph (math := whole_degrees_math) [] "A"
    [Some empty_glyph; Some square] = Raised IndexError
  ∧ check_glyph (math := whole_degrees_math) [] "A"
      [Some square; Some empty_glyph] = Done [].
Proof.
  apply (empty_instance_first_raises_IndexError
           (math := whole_degrees_math) [] "A" empty_glyph square
           [(0, 0); (100, 0); (100, 100); (0, 100)] 3 []);
    try reflexivity.
  simpl. lia.
Defined.

Lemma repeated_glyph_changes_nothing_witness :
  let errs1 := add_dict_set [] points_title "A" in
  let errs2 := add_dict_set errs1 points_title "B" in
  check_glyph (math := whole_degrees_math) errs2 "A"
    [Some square; Some pentagon] = Done errs2
  ∧ glyph_order_loop (math := whole_degrees_math)
      (regular_and_bold square pentagon) [] ["A"; "A"]
    = glyph_order_loop (math := whole_degrees_math)
        (regular_and_bold square pentagon) [] ["A"].
Proof.
  intros errs1 errs2.
  destruct (repeated_glyph_changes_nothing (math := whole_degrees_math)
              [] errs1 errs2 "A" [Some square; Some pentagon])
    as [Hagain Horder].
  { reflexivity. }
  { intros title other. unfold errs2.
    destruct (decide (points_title = title)) as [<- |Hne].
    - rewrite (add_dict_set_get errs1). simpl. apply elem_of_union_l.
    - by rewrite (add_dict_set_other errs1). }
  split; [exact Hagain|].
  apply Horder. reflexivity.
Defined.

